(** * The zipper package of p2p-file-transfer: archive assembly

    A shallow embedding of [pkg/zipper/zipper.go] ([Zip], [addFileToZip],
    [loadOptions], [WithPaths]) over a model of the parts of the Go runtime
    the package calls: [path/filepath] on one volume, a file-system tree
    with symbolic links, special files and access flags behind [os.Stat],
    [os.Lstat], [os.Open], [os.Create] and [filepath.Walk], and an
    [archive/zip] writer whose failures are read from the environment. *)

From Stdlib Require Import ZArith List String Ascii Bool Lia DecimalString.
From stdpp Require Import base gmap strings list.

(** ** Errors and results *)

(** What the operating system and [archive/zip] report. *)
Inductive errno :=
| ENOENT      (* no such file or directory: the one error os.IsNotExist accepts *)
| EACCES      (* permission denied *)
| ENOTDIR     (* a path component is not a directory *)
| ELOOP       (* too many levels of symbolic links *)
| EISDIR      (* read on a directory *)
| EIO         (* input/output error *)
| ENOSPC      (* no space left on the output device *)
| EGETWD      (* os.Getwd failed *)
| EZIP.       (* an error of archive/zip *)

(** A Go [error] value that is not nil.  The two sentinels of
    [path/filepath] are values of their own, equal to no error of the
    system. *)
Inductive error :=
| Sys (e : errno)
| NilInfo     (* a method called on a nil FileInfo: a run-time panic in Go *)
| SkipDir     (* filepath.SkipDir *)
| SkipAll.    (* filepath.SkipAll *)

Coercion Sys : errno >-> error.

#[global] Instance errno_eq_dec : EqDecision errno.
Proof. solve_decision. Defined.

#[global] Instance error_eq_dec : EqDecision error.
Proof. solve_decision. Defined.

Inductive result (A : Type) :=
| Ok (a : A)
| Err (e : errno).
Arguments Ok {A} a.
Arguments Err {A} e.

(** [os.IsNotExist]; on a nil error it is false. *)
Definition IsNotExist (err : option error) : bool :=
  match err with
  | Some (Sys ENOENT) => true
  | _ => false
  end.

(** The [err] of a call that returns [(value, err)]. *)
Definition err_of {A} (r : result A) : option error :=
  match r with
  | Ok _ => None
  | Err e => Some (Sys e)
  end.

(** ** Paths

    An absolute, cleaned path is the list of its components below the root
    of the volume; the strings [filepath] returns for such paths are in
    bijection with these lists. *)

Definition path := list string.

Section Filepath.
(** [os.PathSeparator] of the host. *)
Variable Separator : ascii.

(** [os.IsPathSeparator]: the forward slash separates on every host. *)
Definition IsPathSeparator (c : ascii) : bool :=
  Ascii.eqb c Separator || Ascii.eqb c "/".

(** The fields of a path string between separators (some may be empty). *)
Fixpoint fields (s : string) : list string :=
  match s with
  | EmptyString => [EmptyString]
  | String c s' =>
      if IsPathSeparator c then EmptyString :: fields s'
      else match fields s' with
           | [] => [String c EmptyString]
           | f :: fs => String c f :: fs
           end
  end.

(** One field of [filepath.Clean], on the reversed component stack. *)
Definition clean_step (stack : list string) (c : string) : list string :=
  if String.eqb c "" then stack
  else if String.eqb c "." then stack
  else if String.eqb c ".." then tail stack
  else c :: stack.

(** [filepath.Clean] of the fields [cs] read from directory [base]. *)
Definition Clean (base : path) (cs : list string) : path :=
  rev (fold_left clean_step cs (rev base)).

Definition IsAbs (s : string) : bool :=
  match s with
  | String c _ => IsPathSeparator c
  | EmptyString => false
  end.

(** [filepath.Abs]: a relative path is joined to the working directory,
    and fails when that cannot be read. *)
Definition Abs (cwd : result path) (source : string) : result path :=
  if IsAbs source then Ok (Clean [] (fields source))
  else match cwd with
       | Ok wd => Ok (Clean wd (fields source))
       | Err e => Err e
       end.

(** [filepath.Dir] and [filepath.Base] of an absolute cleaned path. *)
Definition Dir_ (p : path) : path := removelast p.

Definition Base (p : path) : string :=
  match last p with
  | Some c => c
  | None => String Separator EmptyString
  end.

(** The components of [targ] relative to [base]. *)
Fixpoint rel_components (base targ : path) : list string :=
  match base, targ with
  | b :: bs, t :: ts =>
      if String.eqb b t then rel_components bs ts
      else map (fun _ => ".."%string) base ++ targ
  | [], _ => targ
  | _ :: _, [] => map (fun _ => ".."%string) base
  end.

Definition sep_string : string := String Separator EmptyString.

(** [filepath.Rel]; between two absolute paths of one volume it has no
    error case, the result type keeps the shape of the Go signature. *)
Definition Rel (base targ : path) : result string :=
  match rel_components base targ with
  | [] => Ok "."%string
  | cs => Ok (String.concat sep_string cs)
  end.

Fixpoint replace_sep (s : string) : string :=
  match s with
  | EmptyString => EmptyString
  | String c s' =>
      String (if Ascii.eqb c Separator then "/"%char else c) (replace_sep s')
  end.

(** [filepath.ToSlash]. *)
Definition ToSlash (s : string) : string :=
  if Ascii.eqb Separator "/" then s else replace_sep s.

(** [filepath.Join] of a path and one name. *)
Definition Join (p : path) (name : string) : path := p ++ [name].

(** A string with a path separator in it. *)
Fixpoint has_sep (s : string) : bool :=
  match s with
  | EmptyString => false
  | String c s' => IsPathSeparator c || has_sep s'
  end.

(** What can be the name of a file in a directory: not empty, not one
    of the two names every directory has for itself and its parent,
    and with no separator in it. *)
Definition valid_name (name : string) : bool :=
  negb (String.eqb name "") && negb (String.eqb name ".")
  && negb (String.eqb name "..") && negb (has_sep name).

End Filepath.

(** ** The file system *)

(** Anything that is neither a directory nor a symbolic link: a regular
    file, or a device, a pipe or a socket ([f_regular] unset), for which
    [f_data] is what a read up to the end of the file yields (a read
    that never comes to an end is not modelled). *)
Record file := {
  f_data : list Byte.byte;
  f_mtime : Z;           (* modification time, in seconds since the epoch *)
  f_perm : Z;
  f_readable : bool;     (* the process may open it for reading *)
  f_regular : bool;      (* a regular file *)
  f_output : bool        (* the file the job writes its archive to *)
}.

Record dattr := {
  d_list : bool;         (* the process may read the directory's names *)
  d_search : bool        (* the process may look names up in it *)
}.

(** A symbolic link holds an absolute cleaned target.  The entries of a
    directory are kept in the order in which [filepath.Walk] reads its
    names, which is increasing ([sorted_names] below). *)
#[warnings="-register-all"]
Inductive node :=
| File (f : file)
| Dir (a : dattr) (es : list (string * node))
| Symlink (target : path).

(** The tree with the names that no directory can hold taken out. *)
Fixpoint prune (sep : ascii) (n : node) : node :=
  match n with
  | Dir a es =>
      Dir a
        ((fix go (es : list (string * node)) : list (string * node) :=
            match es with
            | [] => []
            | (nm, c) :: es' =>
                if valid_name sep nm then (nm, prune sep c) :: go es' else go es'
            end) es)
  | _ => n
  end.

Fixpoint find_entry (nm : string) (es : list (string * node)) : option node :=
  match es with
  | [] => None
  | (n, c) :: es' => if String.eqb n nm then Some c else find_entry nm es'
  end.

Fixpoint increasing (names : list string) : bool :=
  match names with
  | [] => true
  | x :: rest =>
      match rest with
      | [] => true
      | y :: _ => String.ltb x y && increasing rest
      end
  end.

(** The names of every directory of the tree are in increasing order, as
    the sort in [readDirNames] leaves them. *)
Fixpoint sorted_names (n : node) : bool :=
  match n with
  | Dir _ es =>
      increasing (map fst es) &&
      (fix all (es : list (string * node)) : bool :=
         match es with
         | [] => true
         | (_, c) :: es => sorted_names c && all es
         end) es
  | _ => true
  end.

Definition is_nil {A} (l : list A) : bool :=
  match l with [] => true | _ => false end.

(** Path resolution from node [cur]: every directory on the way must be
    searchable; a symbolic link is replaced by its target, at most [links]
    times ([ELOOP] after that); the last component is followed only when
    [follow] is set ([os.Stat]) and kept otherwise ([os.Lstat]). *)
Fixpoint namei (links : nat) (follow : bool) (root : node)
  : node -> path -> result node :=
  fix go (cur : node) (p : path) {struct p} : result node :=
    match p with
    | [] => Ok cur
    | c :: rest =>
        match cur with
        | Dir a es =>
            if d_search a then
              match find_entry c es with
              | None => Err ENOENT
              | Some (Symlink t) =>
                  if negb follow && is_nil rest then Ok (Symlink t)
                  else match links with
                       | O => Err ELOOP
                       | S l => namei l follow root root (t ++ rest)
                       end
              | Some n => go n rest
              end
            else Err EACCES
        | _ => Err ENOTDIR
        end
    end.

(** The kernel's bound on followed links. *)
Definition MAXSYMLINKS : nat := 40.

(** The type bits of a [FileMode]: [Irregular] stands for the devices,
    pipes and sockets. *)
Inductive Kind := Regular | Irregular | Directory | Link.

Record FileInfo := {
  fi_name : string;
  fi_size : Z;
  fi_kind : Kind;
  fi_perm : Z;
  fi_modTime : Z
}.

Definition IsDir (fi : FileInfo) : bool :=
  match fi_kind fi with
  | Directory => true
  | _ => false
  end.

Definition file_info (nm : string) (f : file) : FileInfo :=
  {| fi_name := nm; fi_size := Z.of_nat (length (f_data f));
     fi_kind := if f_regular f then Regular else Irregular;
     fi_perm := f_perm f; fi_modTime := f_mtime f |}.

Definition info_of (nm : string) (n : node) : FileInfo :=
  match n with
  | File f => file_info nm f
  | Dir _ _ =>
      {| fi_name := nm; fi_size := 0; fi_kind := Directory; fi_perm := 0; fi_modTime := 0 |}
  | Symlink _ =>
      {| fi_name := nm; fi_size := 0; fi_kind := Link; fi_perm := 0; fi_modTime := 0 |}
  end.

(** ** The archive *)

Record FileHeader := {
  Name : string;
  Method : Z;
  UncompressedSize64 : Z;
  Modified : Z;
  Mode : Z
}.

Definition Store : Z := 0.
Definition Deflate : Z := 8.

(** [strings.HasSuffix(name, "/")]: the names [archive/zip] takes for
    those of directories. *)
Fixpoint HasSlashSuffix (name : string) : bool :=
  match name with
  | EmptyString => false
  | String c EmptyString => Ascii.eqb c "/"
  | String _ rest => HasSlashSuffix rest
  end.

(** An entry as the archive holds it. *)
Record Entry := {
  header : FileHeader;
  data : list Byte.byte
}.

Record Archive := {
  entries : list Entry;      (* in the order written *)
  terminated : bool          (* the central directory was written *)
}.

(** [zip.FileInfoHeader]; it returns a nil error on every input. *)
Definition FileInfoHeader (fi : FileInfo) : result FileHeader :=
  Ok {| Name := fi_name fi; Method := Store; UncompressedSize64 := fi_size fi;
        Modified := fi_modTime fi; Mode := fi_perm fi |}.

Definition set_Method (m : Z) (h : FileHeader) : FileHeader :=
  {| Name := Name h; Method := m; UncompressedSize64 := UncompressedSize64 h;
     Modified := Modified h; Mode := Mode h |}.

Definition set_Name (n : string) (h : FileHeader) : FileHeader :=
  {| Name := n; Method := Method h; UncompressedSize64 := UncompressedSize64 h;
     Modified := Modified h; Mode := Mode h |}.

(** ** The environment of one job

    The file system is a snapshot: but for the output file, which
    [os.Create] puts into it and the job then writes to, it does not
    change while the job runs.  What the output device and the archive
    writer do is read from the environment, and so is what a reader of
    the output file finds in it while the job runs ([output_read]: how
    much of the archive the buffered writer has let through depends on
    the encoded bytes, which are not modelled; a read is taken to reach
    the end of the file). *)
Record Env := {
  env_sep : ascii;                            (* os.PathSeparator *)
  env_root_attr : dattr;
  env_root : list (string * node);            (* the names below the root *)
  env_cwd : result path;                      (* os.Getwd *)
  create_err : string -> option errno;        (* os.Create of the output path *)
  output_read : list Entry -> file;           (* the output file, once these entries
                                                 (newest first) went to the writer *)
  fstat_err : path -> option errno;           (* Stat of an open os.File *)
  header_err : string -> option errno;        (* CreateHeader of the zip.Writer, by entry name *)
  copy_err : path -> option (nat * errno);    (* io.Copy: bytes that get through before
                                                 it fails *)
  src_close_err : path -> option errno;       (* Close of a file opened for reading *)
  writer_close_err : option errno;            (* Close of the zip.Writer *)
  file_close_err : option errno               (* Close of the output os.File *)
}.

(** ** What a job prints and closes *)

Inductive event :=
| WarnAbs (source : string) (e : error)   (* Warning: Could not get absolute path for .. *)
| WarnStat (source : string) (e : error)  (* Warning: Could not stat .. *)
| WarnAccess (p : path) (e : error)       (* Warning: Error accessing .. *)
| SkippingDir (p : path)                  (* Skipping directory .. *)
| WarnNotExist (p : path)                 (* Warning: File .. does not exist *)
| WarnNotFile (p : path)                  (* Warning: .. is not a file *)
| ErrOpen (p : path) (e : error)          (* Error opening file .. *)
| ErrFileInfo (p : path) (e : error)      (* Error getting file info for .. *)
| ErrHeader (p : path) (e : error)        (* Error creating zip header for .. *)
| Added (key : string)                    (* Added: .. *)
| ErrClosingFile (p : path) (e : error)   (* Error closing file .. *)
| WriterClose (r : option errno)          (* the call zipWriter.Close() and its result *)
| ErrClosingArchive (e : error)           (* Error closing zip archive: .. *)
| FileClose (r : option errno)            (* the call zipFile.Close() and its result *)
| ErrCreatingArchive (e : error).         (* Error creating zip archive: .. *)

#[global] Instance event_eq_dec : EqDecision event.
Proof. solve_decision. Defined.

(** The state the body of [Zip] works on: the [processed] map, the entries
    of the zip writer and the lines printed, the last two newest first. *)
Record State := {
  processed : gmap string bool;
  written : list Entry;
  out : list event
}.

Definition initState : State :=
  {| processed := ∅; written := []; out := [] |}.

Definition say (e : event) (st : State) : State :=
  {| processed := processed st; written := written st; out := e :: out st |}.

(** [processed[k]]: a key that is absent reads as false. *)
Definition seen (k : string) (st : State) : bool :=
  default false (processed st !! k).

(** [processed[k] = true]. *)
Definition mark (k : string) (st : State) : State :=
  {| processed := <[k := true]> (processed st); written := written st; out := out st |}.

(** ** Options *)

(** A channel of [struct{}] values nobody sends on: all there is to see
    of it is whether it was closed. *)
Record chan := { chan_closed : bool }.

Definition make_chan : chan := {| chan_closed := false |}.

Record ZipOptions := {
  InputPaths : list string;
  OutputPath : string;
  CompressionLevel : Z;
  IncludeOriginal : bool;
  Abort : chan
}.

Definition DefaultOutputPath : string := "output.zip".

(** A function that updates the options in place. *)
Definition OptionFn := ZipOptions -> ZipOptions.

Definition WithPaths (inputPaths : list string) (outputPath : string) : OptionFn :=
  fun o =>
    {| InputPaths := inputPaths; OutputPath := outputPath;
       CompressionLevel := CompressionLevel o;
       IncludeOriginal := IncludeOriginal o; Abort := Abort o |}.

Definition loadOptions (opts : list OptionFn) : ZipOptions :=
  let opt := {| InputPaths := []; OutputPath := DefaultOutputPath;
                CompressionLevel := 0; IncludeOriginal := false;
                Abort := make_chan |} in
  fold_left (fun opt o => o opt) opts opt.

(** What the caller of [Zip] and the world see when it returns. *)
Record Outcome := {
  ret : option error;           (* the error returned, [None] for nil *)
  archive : option Archive;     (* what the output file holds, if it was created *)
  trace : list event            (* lines printed and closes called, in order *)
}.

(** ** The job *)

Section Job.
Variable env : Env.

(** The file system the job sees. *)
Definition fs_root : node :=
  prune (env_sep env) (Dir (env_root_attr env) (env_root env)).

Definition stat_node (p : path) : result node :=
  namei MAXSYMLINKS true fs_root fs_root p.

Definition lstat_node (p : path) : result node :=
  namei MAXSYMLINKS false fs_root fs_root p.

Definition info_at (p : path) (n : node) : FileInfo :=
  info_of (Base (env_sep env) p) n.

(** [os.Stat] follows symbolic links, [os.Lstat] does not. *)
Definition Stat (p : path) : result FileInfo :=
  match stat_node p with
  | Ok n => Ok (info_at p n)
  | Err e => Err e
  end.

Definition Lstat (p : path) : result FileInfo :=
  match lstat_node p with
  | Ok n => Ok (info_at p n)
  | Err e => Err e
  end.

(** [os.Open] for reading: the file the path leads to, of whatever
    kind.  Go also opens a directory and fails on the first read; here
    that failure comes at once. *)
Definition Open (p : path) : result file :=
  match stat_node p with
  | Ok (File f) => if f_readable f then Ok f else Err EACCES
  | Ok (Dir _ _) => Err EISDIR
  | Ok (Symlink _) => Err ELOOP
  | Err e => Err e
  end.

(** What is found through an open file when the entries [ws] have gone
    to the archive writer: the file of the snapshot, unless it is the
    output file of the job itself. *)
Definition reading (f : file) (ws : list Entry) : file :=
  if f_output f then output_read env ws else f.

(** [file.Stat()] on the open file. *)
Definition file_Stat (p : path) (f : file) (st : State) : result FileInfo :=
  match fstat_err env p with
  | Some e => Err e
  | None => Ok (file_info (Base (env_sep env) p) (reading f (written st)))
  end.

(** [zipWriter.CreateHeader]: a new entry with no data yet.  The
    archive keeps the modification time as an unsigned 32-bit count of
    seconds, and as the size of an entry the number of bytes written to
    it, whatever size the header announced.  A name that ends in a
    slash makes a directory entry: its method is Store, whatever the
    header says, and it takes no data. *)
Definition CreateHeader (h : FileHeader) (st : State) : result State :=
  match header_err env (Name h) with
  | Some e => Err e
  | None =>
      Ok {| processed := processed st;
            written :=
              {| header := {| Name := Name h;
                              Method := if HasSlashSuffix (Name h) then Store
                                        else Method h;
                              UncompressedSize64 := 0;
                              Modified := (Modified h mod 2 ^ 32)%Z;
                              Mode := Mode h |};
                 data := [] |} :: written st;
            out := out st |}
  end.

(** [Write] on the writer [CreateHeader] returned: bytes for the entry
    opened last.  The writer of a directory entry takes none. *)
Definition write_entry (bs : list Byte.byte) (st : State) : result State :=
  match written st with
  | [] => Ok st
  | e :: es =>
      if HasSlashSuffix (Name (header e)) then
        if is_nil bs then Ok st else Err EZIP
      else
        Ok {| processed := processed st;
              written :=
                {| header := {| Name := Name (header e); Method := Method (header e);
                                UncompressedSize64 := Z.of_nat (length (data e ++ bs));
                                Modified := Modified (header e);
                                Mode := Mode (header e) |};
                   data := data e ++ bs |} :: es;
              out := out st |}
  end.

(** [io.Copy(writer, file)]: what is read before a read fails is
    written, and an error of the write comes first. *)
Definition io_Copy (p : path) (f : file) (st : State) : option error * State :=
  let bs := f_data (reading f (written st)) in
  let '(err, bs) :=
    match copy_err env p with
    | Some (n, e) => (Some (Sys e), take n bs)
    | None => (None, bs)
    end in
  match write_entry bs st with
  | Ok st => (err, st)
  | Err e => (Some (Sys e), st)
  end.

(** The deferred call of lines 154-159: [file.Close()], whose error is
    printed and goes nowhere else. *)
Definition closeSource (filePath : path) (st : State) : State :=
  match src_close_err env filePath with
  | Some err => say (ErrClosingFile filePath err) st
  | None => st
  end.

Definition addFileToZip (filePath : path) (zipPath : string) (st : State)
  : option error * State :=
  (* Check if the file exists *)
  if IsNotExist (err_of (Stat filePath)) then
    (None, say (WarnNotExist filePath) st)
  else
  (* is file? *)
  match Stat filePath with
  | Err _ => (None, say (WarnNotFile filePath) st)
  | Ok info =>
  if IsDir info then (None, say (WarnNotFile filePath) st) else
  match Open filePath with
  | Err err => (Some (Sys err), say (ErrOpen filePath err) st)
  | Ok file =>
  (* the deferred close runs on every return from here on *)
  let '(err, st) :=
    (* Get file info for header *)
    match file_Stat filePath file st with
    | Err err => (Some (Sys err), say (ErrFileInfo filePath err) st)
    | Ok info =>
    (* Create zip header *)
    match FileInfoHeader info with
    | Err err => (Some (Sys err), say (ErrHeader filePath err) st)
    | Ok header =>
    (* Set compression *)
    let header := set_Method Deflate header in
    (* Set relative path in zip *)
    let header := set_Name zipPath header in
    (* Create writer for this file within zip *)
    match CreateHeader header st with
    | Err err => (Some (Sys err), st)
    | Ok st =>
    (* Copy file content to zip *)
    match io_Copy filePath file st with
    | (Some err, st) => (Some err, st)
    | (None, st) => (None, say (Added zipPath) st)
    end end end end in
  (err, closeSource filePath st)
  end end.

(** The function [Zip] hands to [filepath.Walk] for a directory input
    whose parent is [baseDir]. *)
Definition walkFn (baseDir : path) (p : path) (info : option FileInfo)
  (err : option error) (st : State) : option error * State :=
  match err with
  | Some err => (Some err, say (WarnAccess p err) st)
  | None =>
  match info with
  | None => (Some NilInfo, st)
  | Some info =>
  (* Skip directories as entries (they'll be created implicitly) *)
  if IsDir info then (None, say (SkippingDir p) st) else
  (* Get relative path *)
  match Rel (env_sep env) baseDir p with
  | Err err => (Some (Sys err), st)
  | Ok relPath =>
  (* Use forward slashes for consistency in pattern matching *)
  let relPathFwd := ToSlash (env_sep env) relPath in
  (* Check if file is already processed *)
  if seen relPathFwd st then (None, st) else
  (* Mark file as processed *)
  let st := mark relPathFwd st in
  (* Add file to zip *)
  addFileToZip p relPathFwd st
  end end end.

(** *** filepath.Walk *)
Section Walk.
Context {St : Type}.
Variable fn : path -> option FileInfo -> option error -> St -> option error * St.

Definition readDirNames (a : dattr) (es : list (string * node))
  : result (list string) :=
  if d_list a then Ok (map fst es) else Err EACCES.

Definition is_SkipDir (e : error) : bool := bool_decide (e = SkipDir).

(** [walk path info walkFn], on the node [n] that [path] names.  The
    loop over the names read runs over the entries themselves: in a
    snapshot [lstat] of [Join path name] finds that entry when the
    directory may be searched and fails otherwise. *)
Fixpoint walk (p : path) (n : node) (st : St) {struct n} : option error * St :=
  match n with
  | Dir a es =>
      let names := readDirNames a es in
      let '(err1, st) := fn p (Some (info_at p n)) (err_of names) st in
      match err_of names, err1 with
      | None, None =>
          (fix range (es : list (string * node)) (st : St) {struct es}
             : option error * St :=
             match es with
             | [] => (None, st)
             | (name, c) :: es =>
                 let filename := Join p name in
                 if d_search a then
                   let '(err, st) := walk filename c st in
                   match err with
                   | Some err =>
                       if negb (IsDir (info_at filename c)) || negb (is_SkipDir err)
                       then (Some err, st)
                       else range es st
                   | None => range es st
                   end
                 else
                   let '(err, st) := fn filename None (Some (Sys EACCES)) st in
                   match err with
                   | Some err =>
                       if negb (is_SkipDir err) then (Some err, st)
                       else range es st
                   | None => range es st
                   end
             end) es st
      | _, _ => (err1, st)
      end
  | _ => fn p (Some (info_at p n)) None st
  end.

Definition Walk (root : path) (st : St) : option error * St :=
  let '(err, st) :=
    match lstat_node root with
    | Err err => fn root None (Some (Sys err)) st
    | Ok n => walk root n st
    end in
  match err with
  | Some SkipDir | Some SkipAll => (None, st)
  | _ => (err, st)
  end.
End Walk.

(** The single-file branch of the loop body (lines 120-131). *)
Definition singleFile (absSource : path) (st : State) : option error * State :=
  let relPath := Base (env_sep env) absSource in
  let relPathFwd := ToSlash (env_sep env) relPath in
  (* Add file to zip *)
  if negb (seen relPathFwd st) then
    match addFileToZip absSource relPathFwd st with
    | (Some err, st) => (Some err, st)
    | (None, st) => (None, mark relPathFwd st)
    end
  else (None, st).

(** The body of the loop over [opt.InputPaths]; an error returned here
    is returned by [Zip]. *)
Definition zipSource (source : string) (st : State) : option error * State :=
  match Abs (env_sep env) (env_cwd env) source with
  | Err err => (None, say (WarnAbs source err) st)
  | Ok absSource =>
  match Stat absSource with
  | Err err => (None, say (WarnStat source err) st)
  | Ok info =>
  if IsDir info then
    (* Walk directory *)
    let baseDir := Dir_ absSource in
    Walk (walkFn baseDir) absSource st
  else
    (* Single file *)
    singleFile absSource st
  end end.

Fixpoint zipLoop (inputs : list string) (st : State) : option error * State :=
  match inputs with
  | [] => (None, st)
  | source :: inputs =>
      match zipSource source st with
      | (Some err, st) => (Some err, st)
      | (None, st) => zipLoop inputs st
      end
  end.

(** The deferred call of lines 62-67. *)
Definition closeWriter (st : State) : State :=
  let err := writer_close_err env in
  let st := say (WriterClose err) st in
  match err with
  | Some err => say (ErrClosingArchive err) st
  | None => st
  end.

(** The deferred call of lines 54-59. *)
Definition closeFile (st : State) : State :=
  let err := file_close_err env in
  let st := say (FileClose err) st in
  match err with
  | Some err => say (ErrCreatingArchive err) st
  | None => st
  end.

End Job.

(** ** os.Create

    [os.Create] opens the output path for reading and writing, makes the
    file if there is none and empties it if there is one.  Whether it
    succeeds is read from the environment ([create_err]); when it does,
    the tree that the job goes on to read holds the output file where the
    path leads. *)

(** The node reached from [n] by the names [r], links not followed. *)
Fixpoint descend (n : node) (r : list string) : option node :=
  match r with
  | [] => Some n
  | c :: r' =>
      match n with
      | Dir _ es =>
          match find_entry c es with
          | Some n' => descend n' r'
          | None => None
          end
      | _ => None
      end
  end.

(** Where the fields [p] of a path lead from the directory [cur], which
    is at [here]: the path of the same file on which no component is a
    link.  The kernel walks the fields as they are written, so [..] is
    the parent of the directory reached, and the last name need not
    exist. *)
Fixpoint realpath (links : nat) (root : node)
  : node -> path -> list string -> result path :=
  fix go (cur : node) (here : path) (p : list string) {struct p} : result path :=
    match p with
    | [] => Ok here
    | c :: rest =>
        match cur with
        | Dir a es =>
            if negb (d_search a) then Err EACCES
            else if String.eqb c "" || String.eqb c "." then go cur here rest
            else if String.eqb c ".." then
              match descend root (removelast here) with
              | Some up => go up (removelast here) rest
              | None => Err ENOENT
              end
            else
              match find_entry c es with
              | None => if is_nil rest then Ok (here ++ [c]) else Err ENOENT
              | Some (Symlink t) =>
                  match links with
                  | O => Err ELOOP
                  | S l => realpath l root root [] (t ++ rest)
                  end
              | Some n => go n (here ++ [c]) rest
              end
        | _ => Err ENOTDIR
        end
    end.

(** A regular file of that name is emptied and becomes the output file;
    anything else of that name stays as it is. *)
Fixpoint replace_entry (name : string) (new : file) (es : list (string * node))
  : list (string * node) :=
  match es with
  | [] => []
  | (n, c) :: es' =>
      if String.eqb n name then
        (n, match c with
            | File f => if f_regular f then File new else c
            | _ => c
            end) :: es'
      else (n, c) :: replace_entry name new es'
  end.

(** A new name takes its place among the sorted names. *)
Fixpoint insert_entry (name : string) (new : file) (es : list (string * node))
  : list (string * node) :=
  match es with
  | [] => [(name, File new)]
  | (n, c) :: es' =>
      if String.ltb name n then (name, File new) :: es
      else (n, c) :: insert_entry name new es'
  end.

Definition place (name : string) (new : file) (es : list (string * node))
  : list (string * node) :=
  match find_entry name es with
  | Some _ => replace_entry name new es
  | None => insert_entry name new es
  end.

(** The tree with the file [new] at the path [p], on which no component
    is a link. *)
Fixpoint put (new : file) (p : path) (n : node) {struct p} : node :=
  match p with
  | [] => n
  | c :: rest =>
      match n with
      | Dir a es =>
          if is_nil rest then Dir a (place c new es)
          else
            Dir a
              ((fix below (es : list (string * node)) : list (string * node) :=
                  match es with
                  | [] => []
                  | (nm, child) :: es' =>
                      if String.eqb nm c then (nm, put new rest child) :: es'
                      else (nm, child) :: below es'
                  end) es)
      | _ => n
      end
  end.

(** The output file as [os.Create] leaves it: a regular file with nothing
    in it, open for reading and writing. *)
Definition new_output (env : Env) : file :=
  {| f_data := [];
     f_mtime := f_mtime (output_read env []);
     f_perm := f_perm (output_read env []);
     f_readable := true; f_regular := true; f_output := true |}.

(** The tree after [os.Create outputPath] succeeded. *)
Definition created_root (env : Env) (outputPath : string) : node :=
  let root := fs_root env in
  let start :=
    if IsAbs (env_sep env) outputPath then Some (root, [])
    else match env_cwd env with
         | Ok wd => match descend root wd with
                    | Some n => Some (n, wd)
                    | None => None
                    end
         | Err _ => None
         end in
  match start with
  | Some (cur, here) =>
      match realpath MAXSYMLINKS root cur here (fields (env_sep env) outputPath) with
      | Ok q => put (new_output env) q root
      | Err _ => root
      end
  | None => root
  end.

(** The environment in which the job runs once the output file is
    there. *)
Definition created (env : Env) (outputPath : string) : Env :=
  {| env_sep := env_sep env;
     env_root_attr := env_root_attr env;
     env_root :=
       match created_root env outputPath with
       | Dir _ es => es
       | _ => env_root env
       end;
     env_cwd := env_cwd env;
     create_err := create_err env;
     output_read := output_read env;
     fstat_err := fstat_err env;
     header_err := header_err env;
     copy_err := copy_err env;
     src_close_err := src_close_err env;
     writer_close_err := writer_close_err env;
     file_close_err := file_close_err env |}.

(** ** Zip *)

(** [Zip] once the options are loaded.  The deferred calls run when the
    body returns, the one deferred last first. *)
Definition run (env : Env) (opt : ZipOptions) : Outcome :=
  match create_err env (OutputPath opt) with
  | Some err => {| ret := Some (Sys err); archive := None; trace := [] |}
  | None =>
      let env := created env (OutputPath opt) in
      let '(err, st) := zipLoop env (InputPaths opt) initState in
      let st := closeWriter env st in
      let st := closeFile env st in
      {| ret := err;
         archive := Some {| entries := rev (written st);
                            terminated := bool_decide (writer_close_err env = None) |};
         trace := rev (out st) |}
  end.

Definition Zip (env : Env) (opts : list OptionFn) : Outcome :=
  let opt := loadOptions opts in
  run env opt.

(** * Auxiliary definitions for the properties *)

(** ** Induction on file-system trees *)

Section NodeInd.
Variable P : node -> Prop.
Hypothesis HFile : forall f, P (File f).
Hypothesis HLink : forall t, P (Symlink t).
Hypothesis HDir : forall a es, Forall (fun e => P e.2) es -> P (Dir a es).

Fixpoint node_tree_ind (n : node) : P n :=
  match n with
  | File f => HFile f
  | Symlink t => HLink t
  | Dir a es =>
      HDir a es
        ((fix all (es : list (string * node)) : Forall (fun e => P e.2) es :=
            match es with
            | [] => @List.Forall_nil _ _
            | (nm, c) :: es' =>
                @List.Forall_cons _ (fun e => P e.2) (nm, c) es'
                  (node_tree_ind c) (all es')
            end) es)
  end.
End NodeInd.

Section Plan.
Variable env : Env.

(** The re-check of [addFileToZip] before it opens the file: the path
    cannot be stat'ed, or it is a directory. *)
Definition recheck_fails (p : path) : bool :=
  match Stat env p with
  | Err _ => true
  | Ok info => IsDir info
  end.

Definition recheck_warning (p : path) : event :=
  if IsNotExist (err_of (Stat env p)) then WarnNotExist p else WarnNotFile p.

(** The entry the archive holds under the name [zipPath] for a file
    whose [file.Stat()] was that of [f], once the bytes [bs] went into
    it. *)
Definition entry_of (zipPath : string) (f : file) (bs : list Byte.byte) : Entry :=
  {| header :=
       {| Name := zipPath;
          Method := if HasSlashSuffix zipPath then Store else Deflate;
          UncompressedSize64 := Z.of_nat (length bs);
          Modified := (f_mtime f mod 2 ^ 32)%Z; Mode := f_perm f |};
     data := bs |}.

(** The bytes [io.Copy] reads from a file at [p] that reads as [f]. *)
Definition read_from (p : path) (f : file) : list Byte.byte :=
  match copy_err env p with
  | Some (n, _) => take n (f_data f)
  | None => f_data f
  end.

(** The bytes [io.Copy] gets into the entry named [k] from a file at
    [p] that reads as [f]: a directory entry takes none. *)
Definition copied (p : path) (k : string) (f : file) : list Byte.byte :=
  if HasSlashSuffix k then [] else read_from p f.

(** The error of that copy: of the write, when there are bytes for a
    directory entry, and of the read otherwise. *)
Definition copy_ret (p : path) (k : string) (f : file) : option errno :=
  if HasSlashSuffix k && negb (is_nil (read_from p f)) then Some EZIP
  else snd <$> copy_err env p.

Definition push (e : Entry) (st : State) : State :=
  {| processed := processed st; written := e :: written st; out := out st |}.

(** The entry [addFileToZip p k] leaves for the file [f] it opened, when
    the entries [ws] were written before: header from [file.Stat()],
    bytes from the copy that follows [CreateHeader]. *)
Definition stored (p : path) (k : string) (ws : list Entry) (f : file) : Entry :=
  let info := reading env f ws in
  entry_of k info (copied p k (reading env f (entry_of k info [] :: ws))).

(** What that file reads as when the copy runs. *)
Definition source_of (k : string) (ws : list Entry) (f : file) : file :=
  reading env f (entry_of k (reading env f ws) [] :: ws).

(** The line the deferred close of the file at [p] prints, if any. *)
Definition close_lines (p : path) : list event :=
  match src_close_err env p with
  | Some e => [ErrClosingFile p (Sys e)]
  | None => []
  end.

(** The outcomes of [addFileToZip p k] in state [st]. *)
Inductive add_spec (p : path) (k : string) (st : State)
  : option error * State -> Prop :=
| add_skipped :
    recheck_fails p = true ->
    add_spec p k st (None, say (recheck_warning p) st)
| add_open_failed e :
    recheck_fails p = false -> Open env p = Err e ->
    add_spec p k st (Some (Sys e), say (ErrOpen p e) st)
| add_fstat_failed f e :
    recheck_fails p = false -> Open env p = Ok f -> fstat_err env p = Some e ->
    add_spec p k st (Some (Sys e), closeSource env p (say (ErrFileInfo p e) st))
| add_header_failed f e :
    recheck_fails p = false -> Open env p = Ok f -> fstat_err env p = None ->
    header_err env k = Some e ->
    add_spec p k st (Some (Sys e), closeSource env p st)
| add_copy_failed f e :
    recheck_fails p = false -> Open env p = Ok f -> fstat_err env p = None ->
    header_err env k = None ->
    copy_ret p k (source_of k (written st) f) = Some e ->
    add_spec p k st
      (Some (Sys e), closeSource env p (push (stored p k (written st) f) st))
| add_done f :
    recheck_fails p = false -> Open env p = Ok f -> fstat_err env p = None ->
    header_err env k = None ->
    copy_ret p k (source_of k (written st) f) = None ->
    add_spec p k st
      (None, closeSource env p (say (Added k) (push (stored p k (written st) f) st))).

(** *** The calls a walk makes

    One call of the walk function: the path, the [FileInfo] and the
    error it is given. *)
Record call := {
  c_path : path;
  c_info : option FileInfo;
  c_err : option errno
}.

(** The calls [walk] makes on node [n] at path [p], in order, as long as
    every call returns nil. *)
Fixpoint walk_calls (p : path) (n : node) : list call :=
  match n with
  | Dir a es =>
      if d_list a then
        {| c_path := p; c_info := Some (info_at env p n); c_err := None |} ::
        (fix range (es : list (string * node)) : list call :=
           match es with
           | [] => []
           | (name, c) :: es =>
               (if d_search a then walk_calls (Join p name) c
                else [{| c_path := Join p name; c_info := None;
                         c_err := Some EACCES |}])
               ++ range es
           end) es
      else [{| c_path := p; c_info := Some (info_at env p n); c_err := Some EACCES |}]
  | _ => [{| c_path := p; c_info := Some (info_at env p n); c_err := None |}]
  end.

Definition root_calls (root : path) : list call :=
  match lstat_node env root with
  | Err e => [{| c_path := root; c_info := None; c_err := Some e |}]
  | Ok n => walk_calls root n
  end.

Definition do_call {St : Type}
  (fn : path -> option FileInfo -> option error -> St -> option error * St)
  (c : call) (st : St) : option error * St :=
  fn (c_path c) (c_info c) (Sys <$> c_err c) st.

(** Calls made one after the other until one returns an error. *)
Fixpoint run_calls {St : Type}
  (fn : path -> option FileInfo -> option error -> St -> option error * St)
  (cs : list call) (st : St) : option error * St :=
  match cs with
  | [] => (None, st)
  | c :: cs =>
      match do_call fn c st with
      | (Some err, st) => (Some err, st)
      | (None, st) => run_calls fn cs st
      end
  end.

Definition sentinel (e : option error) : bool :=
  match e with
  | Some SkipDir | Some SkipAll => true
  | _ => false
  end.

(** *** The steps of a job *)

Inductive step :=
| SkipAbs (source : string) (e : errno)   (* an input that has no absolute path *)
| SkipStat (source : string) (e : errno)  (* an input that cannot be stat'ed *)
| Visit (baseDir : path) (c : call)       (* a call of the walk function *)
| Single (absSource : path).              (* the single-file branch *)

Definition source_steps (source : string) : list step :=
  match Abs (env_sep env) (env_cwd env) source with
  | Err err => [SkipAbs source err]
  | Ok absSource =>
      match Stat env absSource with
      | Err err => [SkipStat source err]
      | Ok info =>
          if IsDir info then map (Visit (Dir_ absSource)) (root_calls absSource)
          else [Single absSource]
      end
  end.

Definition plan (inputs : list string) : list step :=
  flat_map source_steps inputs.

Definition run_step (s : step) (st : State) : option error * State :=
  match s with
  | SkipAbs source err => (None, say (WarnAbs source err) st)
  | SkipStat source err => (None, say (WarnStat source err) st)
  | Visit baseDir c => do_call (walkFn env baseDir) c st
  | Single absSource => singleFile env absSource st
  end.

Fixpoint exec (ss : list step) (st : State) : option error * State :=
  match ss with
  | [] => (None, st)
  | s :: ss =>
      match run_step s st with
      | (Some err, st) => (Some err, st)
      | (None, st) => exec ss st
      end
  end.

(** The file a step offers to the archive and the key it offers it
    under: a call on something that is not a directory, or a single
    file. *)
Definition candidate (s : step) : option (path * string) :=
  match s with
  | SkipAbs _ _ | SkipStat _ _ => None
  | Visit baseDir c =>
      match c_err c, c_info c with
      | None, Some info =>
          if IsDir info then None
          else match Rel (env_sep env) baseDir (c_path c) with
               | Ok relPath => Some (c_path c, ToSlash (env_sep env) relPath)
               | Err _ => None
               end
      | _, _ => None
      end
  | Single absSource =>
      Some (absSource, ToSlash (env_sep env) (Base (env_sep env) absSource))
  end.

(** The error a printed line announces, when it is the last line of
    the loop and announces the error that [Zip] goes on to return. *)
Definition announces (w : event) : option error :=
  match w with
  | WarnAccess _ e => Some e
  | ErrOpen _ e => Some e
  | _ => None
  end.

Definition keys (ss : list step) : list string :=
  (omap candidate ss).*2.

Definition names (st : State) : list string :=
  map (fun e => Name (header e)) (written st).



Definition all_marked (past : list step) (st : State) : Prop :=
  forall k, k ∈ keys past -> seen k st = true.

(** The files the inputs offer, in input and traversal order. *)
Definition candidates (inputs : list string) : list (path * string) :=
  omap candidate (plan inputs).

End Plan.

(** ** What the properties speak of *)

(** The lines the two deferred closes print, in order. *)
Definition closing (env : Env) : list event :=
  WriterClose (writer_close_err env)
    :: match writer_close_err env with
       | Some e => [ErrClosingArchive e]
       | None => []
       end
    ++ FileClose (file_close_err env)
    :: match file_close_err env with
       | Some e => [ErrCreatingArchive e]
       | None => []
       end.

(** The same environment with other results for the two closes. *)
Definition with_close_errs (w f : option errno) (env : Env) : Env :=
  {| env_sep := env_sep env; env_root_attr := env_root_attr env;
     env_root := env_root env; env_cwd := env_cwd env;
     create_err := create_err env; output_read := output_read env;
     fstat_err := fstat_err env;
     header_err := header_err env; copy_err := copy_err env;
     src_close_err := src_close_err env;
     writer_close_err := w; file_close_err := f |}.

(** The environment in which the loop of a job runs: the one it was
    started in, with the output file created. *)
Definition job_env (env : Env) (opts : list OptionFn) : Env :=
  created env (OutputPath (loadOptions opts)).


(** Every name in the tree can be the name of a file. *)
Fixpoint valid_tree (sep : ascii) (n : node) : bool :=
  match n with
  | Dir _ es =>
      (fix all (es : list (string * node)) : bool :=
         match es with
         | [] => true
         | (nm, c) :: es' => valid_name sep nm && valid_tree sep c && all es'
         end) es
  | _ => true
  end.

(** A string that ends in a path separator. *)
Fixpoint ends_sep (sep : ascii) (s : string) : bool :=
  match s with
  | EmptyString => false
  | String c EmptyString => IsPathSeparator sep c
  | String _ rest => ends_sep sep rest
  end.


Definition is_link (n : node) : bool :=
  match n with
  | Symlink _ => true
  | _ => false
  end.

(** An input that [os.Stat] reports as a directory. *)
Definition dir_input (env : Env) (source : string) : bool :=
  match Abs (env_sep env) (env_cwd env) source with
  | Err _ => false
  | Ok absSource =>
      match Stat env absSource with
      | Err _ => false
      | Ok info => IsDir info
      end
  end.

(** Two states with the same map and the same archive. *)
Definition same_core (st1 st2 : State) : Prop :=
  processed st1 = processed st2 /\ written st1 = written st2.

(** ** Sample environments *)

Module Sample.
Definition bytes (s : string) : list Byte.byte := list_byte_of_string s.

Definition open_dir : dattr := {| d_list := true; d_search := true |}.

Definition plain (s : string) : file :=
  {| f_data := bytes s; f_mtime := 0; f_perm := 420; f_readable := true;
     f_regular := true; f_output := false |}.

Definition locked (s : string) : file :=
  {| f_data := bytes s; f_mtime := 0; f_perm := 0; f_readable := false;
     f_regular := true; f_output := false |}.

(** A character device from which [s] is read before the end of the
    file; [/dev/null] is one from which nothing is. *)
Definition device (s : string) : file :=
  {| f_data := bytes s; f_mtime := 0; f_perm := 438; f_readable := true;
     f_regular := false; f_output := false |}.

(** A host with separator [sep], working directory [home] below the
    root, and an output device that never fails and lets nothing of the
    archive through before the job ends. *)
Definition host_on (sep : ascii) (root : list (string * node)) : Env :=
  {| env_sep := sep; env_root_attr := open_dir; env_root := root;
     env_cwd := Ok ["home"%string];
     create_err := fun _ => None; output_read := fun _ => plain "";
     fstat_err := fun _ => None;
     header_err := fun _ => None; copy_err := fun _ => None;
     src_close_err := fun _ => None;
     writer_close_err := None; file_close_err := None |}.

(** A host with forward slashes. *)
Definition host (root : list (string * node)) : Env := host_on "/" root.

(** The backslash, the separator of the other kind of host. *)
Definition backslash : ascii := ascii_of_nat 92.

(** [/home/proj] holds [a.txt] and [sub/b.txt]. *)
Definition proj_tree : list (string * node) :=
  [("home"%string,
    Dir open_dir
      [("proj"%string,
        Dir open_dir
          [("a.txt"%string, File (plain "hello"));
           ("sub"%string, Dir open_dir [("b.txt"%string, File (plain "world"))])])])].

Definition closed_dir : dattr := {| d_list := false; d_search := true |}.

(** [/home/proj] holds [a.txt], a directory [private] that may not be
    listed, and [z.txt]; [/home/other.txt] lies beside it. *)
Definition guarded_tree : list (string * node) :=
  [("home"%string,
    Dir open_dir
      [("other.txt"%string, File (plain "other"));
       ("proj"%string,
        Dir open_dir
          [("a.txt"%string, File (plain "hello"));
           ("private"%string, Dir closed_dir [("key"%string, File (plain "secret"))]);
           ("z.txt"%string, File (plain "last"))])])].

(** [/a/d/x] is a symbolic link to a path that does not exist, [/b/d/x]
    is a file. *)
Definition dangling_tree : list (string * node) :=
  [("a"%string, Dir open_dir [("d"%string, Dir open_dir [("x"%string, Symlink ["nowhere"%string])])]);
   ("b"%string, Dir open_dir [("d"%string, Dir open_dir [("x"%string, File (plain "B"))])])].

(** [/a/d/x] and [/b/d/x] are two files. *)
Definition twin_tree : list (string * node) :=
  [("a"%string, Dir open_dir [("d"%string, Dir open_dir [("x"%string, File (plain "A"))])]);
   ("b"%string, Dir open_dir [("d"%string, Dir open_dir [("x"%string, File (plain "B"))])])].

(** [/a/d/x] may not be read, [/b/d/x] is a file like any other. *)
Definition twin_locked_tree : list (string * node) :=
  [("a"%string, Dir open_dir [("d"%string, Dir open_dir [("x"%string, File (locked "A"))])]);
   ("b"%string, Dir open_dir [("d"%string, Dir open_dir [("x"%string, File (plain "B"))])])].

Definition twin_inputs : list string := ["/a/d"%string; "/b/d"%string].

(** The call of the walk function on the link [/a/d/x]. *)
Definition link_call : call :=
  {| c_path := ["a"; "d"; "x"]%string;
     c_info := Some (info_of "x" (Symlink ["nowhere"%string]));
     c_err := None |}.

(** [/home/proj] holds [a.txt], which may not be read, and [z.txt]. *)
Definition locked_tree : list (string * node) :=
  [("home"%string,
    Dir open_dir
      [("proj"%string,
        Dir open_dir
          [("a.txt"%string, File (locked "hello"));
           ("z.txt"%string, File (plain "last"))])])].

(** [/home/alias] is a symbolic link to the directory [/home/proj]. *)
Definition linked_tree : list (string * node) :=
  [("home"%string,
    Dir open_dir
      [("alias"%string, Symlink ["home"; "proj"]%string);
       ("proj"%string, Dir open_dir [("a.txt"%string, File (plain "hello"))])])].

(** [/dev/null] and [/dev/tape] are devices and [/dev/notes] is a
    regular file. *)
Definition device_tree : list (string * node) :=
  [("dev"%string,
    Dir open_dir
      [("notes"%string, File (plain "n"));
       ("null"%string, File (device ""));
       ("tape"%string, File (device "reel"))])].

(** The same host, whose zip writer fails to close. *)
Definition failing_writer : Env :=
  with_close_errs (Some EIO) None (host proj_tree).

(** A host on which neither close succeeds and a file may not be read. *)
Definition failing_closes : Env :=
  with_close_errs (Some EIO) (Some EIO) (host locked_tree).

Definition level9 : OptionFn :=
  fun o =>
    {| InputPaths := InputPaths o; OutputPath := OutputPath o;
       CompressionLevel := 9; IncludeOriginal := true;
       Abort := {| chan_closed := true |} |}.
End Sample.

(** ** The command

    [main] of the [zipper] command.  What cobra makes of the command line
    is taken as given: the flags do not parse, help is asked for, or the
    command is invoked with the value of [--output] (empty when the flag
    is absent) and the positional arguments.  The lines cobra prints
    itself (usage, its own error line) are left out. *)

Inductive invocation :=
| BadFlags (msg : string)
| HelpWanted
| Invoked (outputFile : string) (args : list string).

(** A line [main] prints. *)
Inductive report :=
| ErrorCreatingZip (err : error)     (* Error creating zip: .. *)
| ExecuteError (msg : string).       (* fmt.Println(err) after Execute *)

(** What is seen of one run of the command: the exit status, what [Zip]
    did if it was called, and the lines [main] printed. *)
Record Process := {
  exit_status : Z;
  job : option Outcome;
  reports : list report
}.

(** A number as [%d] prints it. *)
Definition decimal (n : nat) : string :=
  NilEmpty.string_of_uint (Nat.to_uint n).

(** [cobra.MinimumNArgs(n)]: the error it returns, if any. *)
Definition MinimumNArgs (n : nat) (args : list string) : option string :=
  if length args <? n
  then Some ("requires at least " +:+ decimal n +:+ " arg(s), only received "
             +:+ decimal (length args))%string
  else None.

(** The [Run] function of the command; [os.Exit(1)] ends the process at
    once, and a nil error lets [main] return, with status 0. *)
Definition Run (env : Env) (outputFile : string) (args : list string) : Process :=
  (* Set default output file if not specified *)
  let outputFile :=
    if String.eqb outputFile "" then DefaultOutputPath else outputFile in
  let o := Zip env [WithPaths args outputFile] in
  match ret o with
  | Some err =>
      {| exit_status := 1; job := Some o; reports := [ErrorCreatingZip err] |}
  | None => {| exit_status := 0; job := Some o; reports := [] |}
  end.

(** [rootCmd.Execute()] and what [main] does with its error. *)
Definition main (env : Env) (inv : invocation) : Process :=
  match inv with
  | BadFlags msg =>
      {| exit_status := 1; job := None; reports := [ExecuteError msg] |}
  | HelpWanted => {| exit_status := 0; job := None; reports := [] |}
  | Invoked outputFile args =>
      match MinimumNArgs 1 args with
      | Some msg =>
          {| exit_status := 1; job := None; reports := [ExecuteError msg] |}
      | None => Run env outputFile args
      end
  end.

(** ** More to speak of *)

(** A call of a walk carries a [FileInfo] or an error. *)
Definition call_ok (c : call) : Prop := c_info c = None -> c_err c <> None.

Definition step_ok (s : step) : Prop :=
  match s with
  | Visit _ c => call_ok c
  | _ => True
  end.

(** The keys of the lines "Added: .." among the lines printed. *)
Definition added_keys (evs : list event) : list string :=
  omap (fun w => match w with Added k => Some k | _ => None end) evs.

(** A host like [Sample.host] on which the copy of [/home/proj/a.txt]
    fails after three bytes. *)
Definition short_copy_host : Env :=
  {| env_sep := "/"; env_root_attr := Sample.open_dir;
     env_root := Sample.proj_tree; env_cwd := Ok ["home"%string];
     create_err := fun _ => None; output_read := fun _ => Sample.plain "";
     fstat_err := fun _ => None;
     header_err := fun _ => None;
     copy_err := fun p =>
       if bool_decide (p = ["home"; "proj"; "a.txt"]%string)
       then Some (3%nat, ENOSPC) else None;
     src_close_err := fun _ => None;
     writer_close_err := None; file_close_err := None |}.

(** * Properties *)

(** The sample trees list their names as a walk reads them. *)
Lemma sample_trees_sorted :
  forallb (fun root => sorted_names (Dir Sample.open_dir root))
    [Sample.proj_tree; Sample.guarded_tree; Sample.dangling_tree;
     Sample.twin_tree; Sample.twin_locked_tree; Sample.locked_tree;
     Sample.linked_tree; Sample.device_tree] = true.
Proof. vm_compute. reflexivity. Qed.

Section AddFile.
Variable env : Env.

Lemma addFileToZip_spec p k st : add_spec env p k st (addFileToZip env p k st).
Proof.
  unfold addFileToZip.
  destruct (IsNotExist (err_of (Stat env p))) eqn:Hne.
  { assert (Hf : recheck_fails env p = true).
    { unfold recheck_fails. destruct (Stat env p); [discriminate|done]. }
    replace (WarnNotExist p) with (recheck_warning env p)
      by (unfold recheck_warning; now rewrite Hne).
    now constructor. }
  destruct (Stat env p) as [info|e0] eqn:Hst.
  2:{ replace (WarnNotFile p) with (recheck_warning env p)
        by (unfold recheck_warning; now rewrite Hst, Hne).
      constructor. unfold recheck_fails. now rewrite Hst. }
  destruct (IsDir info) eqn:Hd.
  { replace (WarnNotFile p) with (recheck_warning env p)
      by (unfold recheck_warning; now rewrite Hst).
    constructor. unfold recheck_fails. now rewrite Hst. }
  assert (Hf : recheck_fails env p = false).
  { unfold recheck_fails. now rewrite Hst. }
  destruct (Open env p) as [f|e] eqn:Hop; [|now constructor].
  unfold file_Stat. destruct (fstat_err env p) as [e|] eqn:Hfs.
  { now apply add_fstat_failed with f. }
  cbn [FileInfoHeader]. unfold CreateHeader. cbn [set_Name set_Method Name].
  destruct (header_err env k) as [e|] eqn:Hh.
  { now apply add_header_failed with f. }
  unfold io_Copy, write_entry. cbn [written header Name data app].
  pose proof (add_copy_failed env p k st f) as Hfail.
  pose proof (add_done env p k st f) as Hdone.
  unfold stored, source_of, copy_ret, copied, read_from, entry_of in Hfail, Hdone.
  destruct (HasSlashSuffix k) eqn:Hk; cbn [andb] in Hfail, Hdone.
  - destruct (copy_err env p) as [[n e]|] eqn:Hc; cbn [fmap option_fmap option_map snd] in *.
    + destruct (take n _) as [|b bs] eqn:Ht; cbn [is_nil negb] in *.
      * now apply (Hfail e).
      * now apply (Hfail EZIP).
    + destruct (f_data _) as [|b bs] eqn:Ht; cbn [is_nil negb] in *.
      * now apply Hdone.
      * now apply (Hfail EZIP).
  - destruct (copy_err env p) as [[n e]|] eqn:Hc; cbn [fmap option_fmap option_map snd] in *.
    + now apply (Hfail e).
    + now apply Hdone.
Qed.

Lemma closeSource_processed p st :
  processed (closeSource env p st) = processed st.
Proof. unfold closeSource. now destruct (src_close_err env p). Qed.

Lemma closeSource_written p st : written (closeSource env p st) = written st.
Proof. unfold closeSource. now destruct (src_close_err env p). Qed.

Lemma closeSource_out p st :
  out (closeSource env p st) = close_lines env p ++ out st.
Proof. unfold closeSource, close_lines. now destruct (src_close_err env p). Qed.

Lemma closeSource_seen k p st : seen k (closeSource env p st) = seen k st.
Proof. unfold seen. now rewrite closeSource_processed. Qed.

Lemma reading_plain f ws : f_output f = false -> reading env f ws = f.
Proof. unfold reading. now intros ->. Qed.

(** For a file that is not the output of the job, the entry has the
    bytes the copy took from that file. *)
Lemma stored_plain p k ws f :
  f_output f = false -> stored env p k ws f = entry_of k f (copied env p k f).
Proof. intros Hf. unfold stored. now rewrite !reading_plain. Qed.

Lemma source_of_plain k ws f : f_output f = false -> source_of env k ws f = f.
Proof. intros Hf. unfold source_of. now rewrite !reading_plain. Qed.

(** Under a name that does not end in a slash the copy is that of the
    bytes read. *)
Lemma copied_file p k f :
  HasSlashSuffix k = false -> copied env p k f = read_from env p f.
Proof. unfold copied. now intros ->. Qed.

Lemma copy_ret_file p k f :
  HasSlashSuffix k = false -> copy_ret env p k f = snd <$> copy_err env p.
Proof. unfold copy_ret. now intros ->. Qed.

Lemma read_from_all p f : copy_err env p = None -> read_from env p f = f_data f.
Proof. unfold read_from. now intros ->. Qed.
End AddFile.

Section Refinement.
Variable env : Env.

Lemma run_calls_app {St} (fn : path -> option FileInfo -> option error -> St -> option error * St)
  cs1 cs2 st :
  run_calls fn (cs1 ++ cs2) st =
    match run_calls fn cs1 st with
    | (Some err, st') => (Some err, st')
    | (None, st') => run_calls fn cs2 st'
    end.
Proof.
  revert st. induction cs1 as [|c cs1 IH]; intros st; simpl; [done|].
  destruct (do_call fn c st) as [[err|] st']; [done|apply IH].
Qed.

Lemma exec_app ss1 ss2 st :
  exec env (ss1 ++ ss2) st =
    match exec env ss1 st with
    | (Some err, st') => (Some err, st')
    | (None, st') => exec env ss2 st'
    end.
Proof.
  revert st. induction ss1 as [|s ss1 IH]; intros st; simpl; [done|].
  destruct (run_step env s st) as [[err|] st']; [done|apply IH].
Qed.

Lemma exec_visits baseDir cs st :
  exec env (map (Visit baseDir) cs) st = run_calls (walkFn env baseDir) cs st.
Proof.
  revert st. induction cs as [|c cs IH]; intros st; simpl; [done|].
  destruct (do_call (walkFn env baseDir) c st) as [[err|] st']; [done|apply IH].
Qed.

Section Strict.
Context {St : Type}.
Variable fn : path -> option FileInfo -> option error -> St -> option error * St.
(** The walk function returns neither of the sentinels. *)
Hypothesis fn_strict : forall c st, sentinel (do_call fn c st).1 = false.

Lemma run_calls_strict cs st : sentinel (run_calls fn cs st).1 = false.
Proof.
  revert st. induction cs as [|c cs IH]; intros st; simpl; [done|].
  specialize (fn_strict c st).
  destruct (do_call fn c st) as [[err|] st']; [done|apply IH].
Qed.

Lemma sentinel_SkipDir (err : error) :
  sentinel (Some err) = false -> is_SkipDir err = false.
Proof. now destruct err. Qed.

Lemma walk_run_calls n : forall p st,
  walk env fn p n st = run_calls fn (walk_calls env p n) st.
Proof.
  induction n as [f|t|a es IH] using node_tree_ind; intros p st.
  - simpl. unfold do_call. simpl. now destruct (fn _ _ _ _) as [[?|] ?].
  - simpl. unfold do_call. simpl. now destruct (fn _ _ _ _) as [[?|] ?].
  - cbn [walk walk_calls]. unfold readDirNames.
    destruct (d_list a) eqn:Hl; cbn [err_of run_calls]; unfold do_call;
      cbn [c_path c_info c_err fmap option_fmap option_map].
    2:{ now destruct (fn _ _ _ _) as [[?|] ?]. }
    destruct (fn p _ None st) as [[err|] st1]; [done|].
    clear st. revert st1.
    induction es as [|[name c] es IHes]; intros st; [done|].
    apply Forall_cons in IH as [IHc IH]. cbn [snd] in IHc.
    rewrite run_calls_app.
    destruct (d_search a) eqn:Hs.
    + rewrite IHc.
      pose proof (run_calls_strict (walk_calls env (Join p name) c) st) as Hstrict.
      destruct (run_calls fn (walk_calls env (Join p name) c) st) as [[err|] st'].
      * cbn [fst] in Hstrict. rewrite (sentinel_SkipDir _ Hstrict).
        now rewrite orb_true_r.
      * now apply IHes.
    + cbn [run_calls].
      pose proof (fn_strict {| c_path := Join p name; c_info := None;
                               c_err := Some EACCES |} st) as Hstrict.
      unfold do_call in *. cbn in Hstrict |- *.
      destruct (fn (Join p name) None (Some (Sys EACCES)) st) as [[err|] st'].
      * cbn [fst] in Hstrict. now rewrite (sentinel_SkipDir _ Hstrict).
      * now apply IHes.
Qed.

Lemma Walk_run_calls root st :
  Walk env fn root st = run_calls fn (root_calls env root) st.
Proof.
  unfold Walk, root_calls.
  destruct (lstat_node env root) as [n|e].
  - rewrite walk_run_calls.
    pose proof (run_calls_strict (walk_calls env root n) st) as Hstrict.
    destruct (run_calls fn (walk_calls env root n) st) as [[[]|] st']; done.
  - cbn [run_calls].
    pose proof (fn_strict {| c_path := root; c_info := None; c_err := Some e |} st)
      as Hstrict.
    unfold do_call in *. cbn in Hstrict |- *.
    destruct (fn root None (Some (Sys e)) st) as [[[]|] st']; done.
Qed.
End Strict.

Lemma walkFn_strict baseDir c st :
  sentinel (do_call (walkFn env baseDir) c st).1 = false.
Proof.
  unfold do_call, walkFn.
  destruct (c_err c); [done|]. cbn [fmap option_fmap option_map].
  destruct (c_info c) as [info|]; [|done].
  destruct (IsDir info); [done|].
  unfold Rel. destruct (rel_components _ _); (destruct (seen _ _); [done|]);
    match goal with |- context [addFileToZip env ?p ?k ?s] =>
      destruct (addFileToZip_spec env p k s) end; done.
Qed.

Lemma zipSource_exec source st :
  zipSource env source st = exec env (source_steps env source) st.
Proof.
  unfold zipSource, source_steps.
  destruct (Abs _ _ _) as [absSource|e]; [|done].
  destruct (Stat env absSource) as [info|e]; [|done].
  destruct (IsDir info).
  - rewrite exec_visits. apply Walk_run_calls, walkFn_strict.
  - cbn [exec run_step]. now destruct (singleFile env absSource st) as [[?|] ?].
Qed.

(** The loop of [Zip] runs the steps of the plan, up to the first error. *)
Lemma zipLoop_exec inputs st :
  zipLoop env inputs st = exec env (plan env inputs) st.
Proof.
  revert st. induction inputs as [|source inputs IH]; intros st; [done|].
  cbn [zipLoop plan flat_map]. rewrite exec_app, zipSource_exec.
  destruct (exec env (source_steps env source) st) as [[err|] st']; [done|apply IH].
Qed.
End Refinement.

Section Steps.
Variable env : Env.

Lemma seen_mark k k' st :
  seen k' (mark k st) = if decide (k = k') then true else seen k' st.
Proof.
  unfold seen, mark; cbn [processed].
  rewrite lookup_insert. now destruct (decide (k = k')).
Qed.

Lemma seen_mark_eq k st : seen k (mark k st) = true.
Proof. rewrite seen_mark. now destruct (decide (k = k)). Qed.

Lemma announces_recheck p : announces (recheck_warning env p) = None.
Proof. unfold recheck_warning. now destruct (IsNotExist _). Qed.

Lemma run_step_candidate s p k st :
  candidate env s = Some (p, k) ->
  run_step env s st =
    if seen k st then (None, st)
    else match s with
         | Single _ =>
             match addFileToZip env p k st with
             | (Some err, st1) => (Some err, st1)
             | (None, st1) => (None, mark k st1)
             end
         | _ => addFileToZip env p k (mark k st)
         end.
Proof.
  destruct s as [src e|src e|baseDir c|absSource]; cbn [candidate run_step];
    [done|done| |].
  - unfold do_call, walkFn.
    destruct (c_err c); [done|]. destruct (c_info c) as [info|]; [|done].
    destruct (IsDir info); [done|]. cbn [fmap option_fmap option_map].
    destruct (Rel _ _ _) as [relPath|]; [|done].
    intros [= <- <-]. done.
  - intros [= <- <-]. unfold singleFile. now destruct (seen _ st).
Qed.

(** A step that offers no file leaves the map and the archive alone and
    prints at most one line. *)
Lemma run_step_other s st r st' :
  candidate env s = None ->
  run_step env s st = (r, st') ->
  processed st' = processed st /\ written st' = written st /\
  (out st' = out st \/
   exists w, out st' = w :: out st /\
             match announces w with Some e => r = Some e | None => r = None end).
Proof.
  destruct s as [src e|src e|baseDir c|absSource]; cbn [candidate run_step].
  - intros _ [= <- <-]. repeat split. right. now eexists.
  - intros _ [= <- <-]. repeat split. right. now eexists.
  - unfold do_call, walkFn.
    destruct (c_err c) as [e|]; cbn [fmap option_fmap option_map].
    { intros _ [= <- <-]. repeat split. right. now eexists. }
    destruct (c_info c) as [info|].
    2:{ intros _ [= <- <-]. repeat split. now left. }
    destruct (IsDir info).
    { intros _ [= <- <-]. repeat split. right. now eexists. }
    unfold Rel. now destruct (rel_components _ _).
  - done.
Qed.

(** *** What one add does to the three parts of the state *)

Lemma addFileToZip_processed p k st :
  processed (addFileToZip env p k st).2 = processed st.
Proof.
  destruct (addFileToZip_spec env p k st); cbn [snd];
    rewrite ?closeSource_processed; done.
Qed.

Lemma close_lines_announce p w : w ∈ close_lines env p -> announces w = None.
Proof.
  unfold close_lines. destruct (src_close_err env p); intros Hw.
  - now apply list_elem_of_singleton in Hw as ->.
  - now apply elem_of_nil in Hw.
Qed.

Lemma addFileToZip_out p k st :
  exists new, out (addFileToZip env p k st).2 = new ++ out st /\
    forall w e, w ∈ new -> announces w = Some e ->
      (addFileToZip env p k st).1 = Some e /\ new = [w].
Proof.
  destruct (addFileToZip_spec env p k st) as
    [Hre|e Hre Ho|f e Hre Ho Hfs|f e Hre Ho Hfs Hh|f e Hre Ho Hfs Hh Hc
    |f Hre Ho Hfs Hh Hc]; cbn [fst snd]; rewrite ?closeSource_out;
    cbn [out say push].
  - exists [recheck_warning env p]. split; [done|].
    intros w e ->%list_elem_of_singleton. now rewrite announces_recheck.
  - exists [ErrOpen p e]. split; [done|].
    now intros w e' ->%list_elem_of_singleton [= <-].
  - exists (close_lines env p ++ [ErrFileInfo p e]).
    split; [now rewrite <- app_assoc|].
    intros w e' [Hw|Hw]%elem_of_app Ha.
    + apply close_lines_announce in Hw. congruence.
    + now apply list_elem_of_singleton in Hw as ->.
  - exists (close_lines env p). split; [done|].
    intros w e' Hw Ha. apply close_lines_announce in Hw. congruence.
  - exists (close_lines env p). split; [done|].
    intros w e' Hw Ha. apply close_lines_announce in Hw. congruence.
  - exists (close_lines env p ++ [Added k]).
    split; [now rewrite <- app_assoc|].
    intros w e' [Hw|Hw]%elem_of_app Ha.
    + apply close_lines_announce in Hw. congruence.
    + now apply list_elem_of_singleton in Hw as ->.
Qed.

(** An add writes nothing, or one entry for the file it opened; it
    returns an error after writing exactly when the copy fails. *)
Lemma addFileToZip_written p k st :
  written (addFileToZip env p k st).2 = written st \/
  exists f, recheck_fails env p = false /\ Open env p = Ok f /\
    written (addFileToZip env p k st).2
    = stored env p k (written st) f :: written st /\
    (addFileToZip env p k st).1
    = Sys <$> copy_ret env p k (source_of env k (written st) f).
Proof.
  destruct (addFileToZip_spec env p k st) as
    [Hre|e Hre Ho|f e Hre Ho Hfs|f e Hre Ho Hfs Hh|f e Hre Ho Hfs Hh Hc
    |f Hre Ho Hfs Hh Hc]; cbn [fst snd]; rewrite ?closeSource_written;
    cbn [written say push]; try (now left).
  - right. exists f. now rewrite Hc.
  - right. exists f. now rewrite Hc.
Qed.


(** *** The effect of a step on the three parts of the state *)

Lemma run_step_out s st r st' :
  run_step env s st = (r, st') ->
  exists new, out st' = new ++ out st /\
    forall w e, w ∈ new -> announces w = Some e -> r = Some e /\ new = [w].
Proof.
  intros Hrun. destruct (candidate env s) as [[p k]|] eqn:Hc.
  - rewrite (run_step_candidate _ _ _ _ Hc) in Hrun.
    destruct (seen k st).
    { injection Hrun as <- <-. exists []. split; [done|].
      intros w e Hw. now apply elem_of_nil in Hw. }
    destruct s; try done.
    + destruct (addFileToZip_out p k (mark k st)) as (new & Ho & Hnew).
      rewrite Hrun in Ho, Hnew. now exists new.
    + destruct (addFileToZip_out p k st) as (new & Ho & Hnew).
      destruct (addFileToZip env p k st) as [[e|] st1];
        injection Hrun as <- <-; now exists new.
  - destruct (run_step_other _ _ _ _ Hc Hrun) as (_ & _ & [Ho|(w & Ho & Hw)]).
    + exists []. split; [done|]. intros w e Hw. now apply elem_of_nil in Hw.
    + exists [w]. split; [done|].
      intros w' e ->%list_elem_of_singleton Ha. rewrite Ha in Hw. done.
Qed.

Lemma run_step_written s st r st' :
  run_step env s st = (r, st') ->
  written st' = written st \/
  exists p k f, candidate env s = Some (p, k) /\ seen k st = false /\
                recheck_fails env p = false /\ Open env p = Ok f /\
                written st' = stored env p k (written st) f :: written st /\
                r = Sys <$> copy_ret env p k (source_of env k (written st) f).
Proof.
  intros Hrun. destruct (candidate env s) as [[p k]|] eqn:Hc.
  - rewrite (run_step_candidate _ _ _ _ Hc) in Hrun.
    destruct (seen k st) eqn:Hseen; [injection Hrun as <- <-; now left|].
    destruct s; try done.
    + destruct (addFileToZip_written p k (mark k st)) as [Hw|(f & ? & ? & Hw & Hr)];
        rewrite Hrun in *; [now left|right]. now exists p, k, f.
    + destruct (addFileToZip_written p k st) as [Hw|(f & ? & ? & Hw & Hr)];
        destruct (addFileToZip env p k st) as [[e|] st1];
        injection Hrun as <- <-; cbn [fst snd written mark] in *;
        solve [now left | right; now exists p, k, f].
  - left. now destruct (run_step_other _ _ _ _ Hc Hrun) as (_ & ? & _).
Qed.

(** The map after a step that offers a file under a key not yet
    marked. *)
Lemma run_step_processed s st r st' p k :
  run_step env s st = (r, st') ->
  candidate env s = Some (p, k) -> seen k st = false ->
  processed st' = processed st \/ processed st' = <[k := true]> (processed st).
Proof.
  intros Hrun Hc Hseen. rewrite (run_step_candidate _ _ _ _ Hc), Hseen in Hrun.
  destruct s; try done.
  - pose proof (addFileToZip_processed p k (mark k st)) as Hp.
    rewrite Hrun in Hp. now right.
  - pose proof (addFileToZip_processed p k st) as Hp.
    destruct (addFileToZip env p k st) as [[e|] st1];
      injection Hrun as <- <-; cbn in *; [now left|right; now rewrite Hp].
Qed.


Lemma run_step_seen_mono s st r st' k' :
  run_step env s st = (r, st') -> seen k' st = true -> seen k' st' = true.
Proof.
  intros Hrun. destruct (candidate env s) as [[p k]|] eqn:Hc.
  - destruct (seen k st) eqn:Hseen.
    { rewrite (run_step_candidate _ _ _ _ Hc), Hseen in Hrun.
      now injection Hrun as <- <-. }
    unfold seen.
    destruct (run_step_processed _ _ _ _ _ _ Hrun Hc Hseen) as [->| ->]; [done|].
    intros Hs. destruct (decide (k = k')) as [->|Hne].
    + now rewrite lookup_insert_eq.
    + now rewrite lookup_insert_ne.
  - destruct (run_step_other _ _ _ _ Hc Hrun) as (Hp & _ & _).
    unfold seen. now rewrite Hp.
Qed.

(** After a step that returns nil, the key it offered is marked. *)
Lemma run_step_marks s st st' p k :
  run_step env s st = (None, st') ->
  candidate env s = Some (p, k) -> seen k st' = true.
Proof.
  intros Hrun Hc. rewrite (run_step_candidate _ _ _ _ Hc) in Hrun.
  destruct (seen k st) eqn:Hseen; [now injection Hrun as <-|].
  destruct s; try done.
  + pose proof (addFileToZip_processed p k (mark k st)) as Hp.
    rewrite Hrun in Hp. unfold seen. cbn in Hp. rewrite Hp.
    now rewrite lookup_insert_eq.
  + destruct (addFileToZip env p k st) as [[e|] st1]; [done|].
    injection Hrun as <-. apply seen_mark_eq.
Qed.
End Steps.

Section Exec.
Variable env : Env.

Lemma keys_app ss1 ss2 : keys env (ss1 ++ ss2) = keys env ss1 ++ keys env ss2.
Proof. unfold keys. now rewrite omap_app, fmap_app. Qed.

Lemma keys_cons s ss :
  keys env (s :: ss) =
    match candidate env s with
    | Some (_, k) => k :: keys env ss
    | None => keys env ss
    end.
Proof. unfold keys. cbn. now destruct (candidate env s) as [[]|]. Qed.

Lemma elem_of_keys_snoc k past s :
  k ∈ keys env (past ++ [s]) <->
  k ∈ keys env past \/ exists p, candidate env s = Some (p, k).
Proof.
  rewrite keys_app, elem_of_app, keys_cons. cbn.
  destruct (candidate env s) as [[p k']|]; split; intros [?|H]; eauto.
  - apply list_elem_of_singleton in H as ->. eauto.
  - destruct H as [? [= <- <-]]. right. now apply list_elem_of_singleton.
  - now apply elem_of_nil in H.
  - now destruct H.
Qed.

Lemma exec_cons_inv s ss st r st' :
  exec env (s :: ss) st = (r, st') ->
  (exists e, run_step env s st = (Some e, st') /\ r = Some e) \/
  (exists st1, run_step env s st = (None, st1) /\ exec env ss st1 = (r, st')).
Proof.
  cbn. destruct (run_step env s st) as [[e|] st1]; [intros [= <- <-]|]; eauto.
Qed.

Lemma exec_written_grows ss : forall st r st',
  exec env ss st = (r, st') -> exists new, written st' = new ++ written st.
Proof.
  induction ss as [|s ss IH]; intros st r st' Hex.
  - injection Hex as <- <-. now exists [].
  - apply exec_cons_inv in Hex as [(e & Hs & _)|(st1 & Hs & Hex)].
    + apply run_step_written in Hs as [->|(p & k & f & _ & _ & _ & _ & -> & _)];
        [now exists []|now eexists [_]].
    + apply IH in Hex as [new ->].
      apply run_step_written in Hs as [->|(p & k & f & _ & _ & _ & _ & -> & _)];
        [now exists new|]. eexists (new ++ [_]). now rewrite <- app_assoc.
Qed.


Lemma exec_all_marked ss : forall past st st',
  all_marked env past st -> exec env ss st = (None, st') ->
  all_marked env (past ++ ss) st'.
Proof.
  induction ss as [|s ss IH]; intros past st st' Hin Hex.
  - injection Hex as <-. now rewrite app_nil_r.
  - apply exec_cons_inv in Hex as [(e & _ & ?)|(st1 & Hs & Hex)]; [done|].
    replace (past ++ s :: ss) with ((past ++ [s]) ++ ss) by now rewrite <- app_assoc.
    eapply IH; eauto.
    intros k Hk. apply elem_of_keys_snoc in Hk as [Hk|[p Hc]].
    + eapply run_step_seen_mono; eauto.
    + eapply run_step_marks; eauto.
Qed.


(** Where an entry of the archive comes from: the first step that
    offered its name. *)
Lemma exec_provenance ss : forall past st r st' e,
  all_marked env past st ->
  exec env ss st = (r, st') ->
  e ∈ written st' ->
  e ∈ written st \/
  exists ss1 s ss2 p f ws,
    ss = ss1 ++ s :: ss2 /\
    candidate env s = Some (p, Name (header e)) /\
    (Name (header e) ∉ keys env (past ++ ss1)) /\
    recheck_fails env p = false /\ Open env p = Ok f /\
    e = stored env p (Name (header e)) ws f.
Proof.
  induction ss as [|s ss IH]; intros past st r st' e Hpast Hex He.
  - injection Hex as <- <-. now left.
  - assert (Hstep : forall r1 st1, run_step env s st = (r1, st1) ->
      e ∈ written st1 ->
      e ∈ written st \/
      exists p f ws, candidate env s = Some (p, Name (header e)) /\
        (Name (header e) ∉ keys env past) /\
        recheck_fails env p = false /\ Open env p = Ok f /\
        e = stored env p (Name (header e)) ws f).
    { intros r1 st1 Hs He1.
      destruct (run_step_written _ _ _ _ _ Hs)
        as [Hw|(p & k & f & Hc & Hk & ? & ? & Hw & _)].
      - left. now rewrite <- Hw.
      - rewrite Hw in He1. apply elem_of_cons in He1 as [->|?]; [right|now left].
        exists p, f, (written st). cbn. repeat split; try done.
        intros Hin. apply Hpast in Hin. congruence. }
    apply exec_cons_inv in Hex as [(e0 & Hs & ->)|(st1 & Hs & Hex)].
    + destruct (Hstep _ _ Hs He) as [?|(p & f & ws & ? & ? & ? & ? & ?)];
        [now left|right].
      exists [], s, ss, p, f, ws. now rewrite app_nil_r.
    + assert (Hpast1 : all_marked env (past ++ [s]) st1).
      { apply (exec_all_marked [s] past st); [done|]. cbn. now rewrite Hs. }
      destruct (IH _ _ _ _ _ Hpast1 Hex He)
        as [He1|(ss1 & s' & ss2 & p & f & ws & -> & ? & Hn & ? & ? & ?)].
      * destruct (Hstep _ _ Hs He1) as [?|(p & f & ws & ? & ? & ? & ? & ?)];
          [now left|right].
        exists [], s, ss, p, f, ws. now rewrite app_nil_r.
      * right. exists (s :: ss1), s', ss2, p, f, ws. repeat split; try done.
        now rewrite <- app_assoc in Hn.
Qed.


(** A line that announces an error is the last one printed, and the
    error is the one returned. *)
Lemma exec_announced ss : forall st r st' w e,
  exec env ss st = (r, st') ->
  w ∈ out st' -> announces w = Some e ->
  w ∈ out st \/ (r = Some e /\ exists tl, out st' = w :: tl).
Proof.
  induction ss as [|s ss IH]; intros st r st' w e Hex Hw Ha.
  - injection Hex as <- <-. now left.
  - apply exec_cons_inv in Hex as [(e0 & Hs & ->)|(st1 & Hs & Hex)].
    + destruct (run_step_out _ _ _ _ _ Hs) as (new & Ho & Hnew).
      rewrite Ho in Hw |- *. apply elem_of_app in Hw as [Hw|?]; [right|now left].
      destruct (Hnew _ _ Hw Ha) as [-> ->]. split; [done|]. now eexists.
    + destruct (IH _ _ _ _ _ Hex Hw Ha) as [Hw1|?]; [left|now right].
      destruct (run_step_out _ _ _ _ _ Hs) as (new & Ho & Hnew).
      rewrite Ho in Hw1. apply elem_of_app in Hw1 as [Hw1|?]; [|done].
      now destruct (Hnew _ _ Hw1 Ha).
Qed.

Lemma exec_out_grows ss : forall st r st',
  exec env ss st = (r, st') -> exists new, out st' = new ++ out st.
Proof.
  induction ss as [|s ss IH]; intros st r st' Hex.
  - injection Hex as <- <-. now exists [].
  - apply exec_cons_inv in Hex as [(e & Hs & _)|(st1 & Hs & Hex)].
    + apply run_step_out in Hs as (new & -> & _). now exists new.
    + apply IH in Hex as [new ->].
      apply run_step_out in Hs as (new1 & -> & _).
      exists (new ++ new1). now rewrite <- app_assoc.
Qed.
End Exec.

(** ** Paths and keys *)

Lemma elem_of_rev {A} (x : A) (l : list A) : x ∈ rev l <-> x ∈ l.
Proof. rewrite !list_elem_of_In. symmetry. apply in_rev. Qed.


Section Paths.
Variable sep : ascii.

Lemma fields_no_sep s : Forall (fun f => has_sep sep f = false) (fields sep s).
Proof.
  induction s as [|c s IH]; cbn.
  - now repeat constructor.
  - destruct (IsPathSeparator sep c) eqn:Hc.
    + now constructor.
    + destruct (fields sep s) as [|f fs]; [now repeat constructor; cbn; rewrite Hc|].
      apply Forall_cons in IH as [Hf Hfs]. constructor; [|done].
      cbn. now rewrite Hc.
Qed.

Lemma clean_step_elem stack c x :
  x ∈ clean_step stack c -> x ∈ stack \/ x = c.
Proof.
  unfold clean_step.
  destruct (String.eqb c ""); [now left|].
  destruct (String.eqb c "."); [now left|].
  destruct (String.eqb c "..").
  - destruct stack; cbn; [now left|]. intros ?. left. now right.
  - intros [->|?]%elem_of_cons; eauto.
Qed.

Lemma fold_clean_elem cs : forall stack x,
  x ∈ fold_left clean_step cs stack -> x ∈ stack \/ x ∈ cs.
Proof.
  induction cs as [|c cs IH]; intros stack x; cbn; [now left|].
  intros [[?| ->]%clean_step_elem|?]%IH; [now left|right; now left|right; now right].
Qed.

Lemma Clean_elem base cs x : x ∈ Clean base cs -> x ∈ base \/ x ∈ cs.
Proof.
  unfold Clean. rewrite elem_of_rev.
  intros [Hx|Hx]%fold_clean_elem; [left|now right].
  now rewrite elem_of_rev in Hx.
Qed.

(** The components of an absolute path hold no separator when those
    of the working directory hold none. *)
Lemma Abs_no_sep cwd source absSource :
  match cwd with
  | Ok wd => Forall (fun c => has_sep sep c = false) wd
  | Err _ => True
  end ->
  Abs sep cwd source = Ok absSource ->
  Forall (fun c => has_sep sep c = false) absSource.
Proof.
  intros Hwd. unfold Abs. pose proof (fields_no_sep source) as Hf.
  rewrite Forall_forall in Hf.
  destruct (IsAbs sep source).
  - intros [= <-]. apply Forall_forall. intros x [Hx|Hx]%Clean_elem; [|eauto].
    now apply elem_of_nil in Hx.
  - destruct cwd as [wd|]; [|done]. intros [= <-].
    rewrite Forall_forall in Hwd.
    apply Forall_forall. intros x [Hx|Hx]%Clean_elem; eauto.
Qed.

Lemma replace_sep_id s : has_sep sep s = false -> replace_sep sep s = s.
Proof.
  induction s as [|c s IH]; cbn; [done|].
  unfold IsPathSeparator. intros [[Hc _]%orb_false_elim Hs]%orb_false_elim.
  now rewrite Hc, IH.
Qed.

Lemma ToSlash_id s : has_sep sep s = false -> ToSlash sep s = s.
Proof. intros Hs. unfold ToSlash. destruct (Ascii.eqb sep "/"); [done|now apply replace_sep_id]. Qed.

Lemma has_sep_slash s :
  has_sep sep s = false -> has_sep "/" s = false.
Proof.
  induction s as [|c s IH]; cbn; [done|].
  unfold IsPathSeparator. intros [[_ Hc]%orb_false_elim Hs]%orb_false_elim.
  now rewrite Hc, IH.
Qed.



Lemma rel_components_prefix base t : rel_components base (base ++ t) = t.
Proof.
  induction base as [|b base IH]; cbn; [now destruct t|].
  now rewrite String.eqb_refl.
Qed.

Lemma removelast_last (p : path) c : last p = Some c -> removelast p ++ [c] = p.
Proof.
  induction p as [|x p IH]; [done|]. destruct p as [|y p].
  - now intros [= ->].
  - intros Hl. cbn. f_equal. now apply IH.
Qed.

Lemma Base_last (p : path) c : last p = Some c -> Base sep p = c.
Proof. unfold Base. now intros ->. Qed.

(** The path of a descendant relative to the parent of [p]: the last
    name of [p] and the names below it. *)
Lemma rel_components_below (p : path) r :
  rel_components (Dir_ p) (p ++ r) = drop (length p - 1) (p ++ r).
Proof.
  unfold Dir_. destruct (last p) as [c|] eqn:Hl.
  - rewrite <- (removelast_last p c Hl) at 2 3 4.
    rewrite <- app_assoc, rel_components_prefix, length_app. cbn.
    rewrite drop_app_length'; [done|]. lia.
  - apply last_None in Hl as ->. cbn. now rewrite drop_0.
Qed.
End Paths.

(** ** Path resolution and the walk of a tree *)

Section Resolution.
Variable root : node.

Lemma namei_nil links follow cur : namei links follow root cur [] = Ok cur.
Proof. now destruct links. Qed.

Lemma namei_cons links follow cur c rest :
  namei links follow root cur (c :: rest) =
    match cur with
    | Dir a es =>
        if d_search a then
          match find_entry c es with
          | None => Err ENOENT
          | Some (Symlink t) =>
              if negb follow && is_nil rest then Ok (Symlink t)
              else match links with
                   | O => Err ELOOP
                   | S l => namei l follow root root (t ++ rest)
                   end
          | Some n => namei links follow root n rest
          end
        else Err EACCES
    | _ => Err ENOTDIR
    end.
Proof. now destruct links. Qed.


(** Resolution of a longer path goes through the node its prefix names. *)
Lemma namei_app follow r links : forall p cur d,
  namei links false root cur p = Ok d -> is_link d = false ->
  exists links', namei links follow root cur (p ++ r) = namei links' follow root d r.
Proof.
  induction links as [links IHlinks] using lt_wf_ind.
  induction p as [|c p IHp]; intros cur d Hn Hl.
  - rewrite namei_nil in Hn. injection Hn as ->. now exists links.
  - rewrite namei_cons in Hn. cbn [app]. rewrite namei_cons.
    destruct cur as [|a es|]; try done.
    destruct (d_search a); [|done].
    destruct (find_entry c es) as [n'|]; [|done].
    destruct n' as [f|a' es'|t]; try now apply IHp.
    destruct p as [|c' p].
    { cbn in Hn. injection Hn as <-. done. }
    cbn [negb andb is_nil app] in Hn |- *. rewrite andb_false_r.
    destruct links as [|l]; [done|].
    rewrite app_comm_cons, app_assoc. apply IHlinks; [lia|done..].
Qed.
End Resolution.

Section Tree.
Variable env : Env.

Lemma lstat_stat (p : path) d :
  lstat_node env p = Ok d -> is_link d = false -> stat_node env p = Ok d.
Proof.
  intros Hn Hl. unfold stat_node.
  destruct (namei_app (fs_root env) true [] _ _ _ _ Hn Hl) as [links' Heq].
  rewrite app_nil_r in Heq. now rewrite Heq, namei_nil.
Qed.




Lemma walk_calls_dir p a es :
  walk_calls env p (Dir a es) =
    if d_list a then
      {| c_path := p; c_info := Some (info_at env p (Dir a es)); c_err := None |}
      :: flat_map (fun e =>
           if d_search a then walk_calls env (Join p e.1) e.2
           else [{| c_path := Join p e.1; c_info := None; c_err := Some EACCES |}]) es
    else [{| c_path := p; c_info := Some (info_at env p (Dir a es));
             c_err := Some EACCES |}].
Proof.
  cbn [walk_calls]. destruct (d_list a); [|done]. f_equal.
  induction es as [|[name c] es IH]; [done|]. cbn. now rewrite IH.
Qed.


End Tree.

(** ** The names of files, and the keys made of them *)

Section Names.
Variable sep : ascii.

Lemma prune_valid n : valid_tree sep (prune sep n) = true.
Proof.
  induction n as [f|t|a es IH] using node_tree_ind; [done..|].
  cbn [prune valid_tree].
  induction es as [|[nm c] es IHes]; [done|].
  apply Forall_cons in IH as [IHc IH]. cbn [snd] in IHc.
  destruct (valid_name sep nm) eqn:Hnm; [|now apply IHes].
  rewrite Hnm, IHc. now apply IHes.
Qed.

Lemma find_entry_valid a es c n :
  valid_tree sep (Dir a es) = true -> find_entry c es = Some n ->
  valid_name sep c = true /\ valid_tree sep n = true.
Proof.
  cbn [valid_tree]. induction es as [|[nm c'] es IH]; [done|].
  intros [[Hnm Hc]%andb_true_iff Hes]%andb_true_iff. cbn [find_entry].
  destruct (String.eqb nm c) eqn:Heq.
  - apply String.eqb_eq in Heq as ->. now intros [= <-].
  - now apply IH.
Qed.

(** Whatever a path resolves to, every one of its components is the
    name of a file. *)
Lemma namei_valid root follow :
  valid_tree sep root = true ->
  forall links p cur n,
    valid_tree sep cur = true -> namei links follow root cur p = Ok n ->
    valid_tree sep n = true /\ Forall (fun c => valid_name sep c = true) p.
Proof.
  intros Hroot links. induction links as [links IHlinks] using lt_wf_ind.
  induction p as [|c p IHp]; intros cur n Hcur Hn.
  - rewrite namei_nil in Hn. injection Hn as <-. now split.
  - rewrite namei_cons in Hn. destruct cur as [|a es|]; try done.
    destruct (d_search a); [|done].
    destruct (find_entry c es) as [n'|] eqn:Hf; [|done].
    destruct (find_entry_valid _ _ _ _ Hcur Hf) as [Hc Hn'].
    assert (Hgo : forall m, namei links follow root n' p = Ok m ->
              valid_tree sep m = true /\
              Forall (fun c => valid_name sep c = true) (c :: p)).
    { intros m Hm. destruct (IHp _ _ Hn' Hm). split; [done|now constructor]. }
    destruct n' as [f|a' es'|t]; try now apply Hgo.
    destruct (negb follow && is_nil p) eqn:Hlast.
    + injection Hn as <-. split; [done|].
      apply andb_true_iff in Hlast as [_ Hp]. destruct p; [|done].
      now repeat constructor.
    + destruct links as [|l]; [done|].
      destruct (IHlinks l ltac:(lia) _ _ _ Hroot Hn) as [Hv Hall].
      split; [done|]. apply Forall_app in Hall as [_ Hall]. now constructor.
Qed.


Lemma has_sep_ends s : has_sep sep s = false -> ends_sep sep s = false.
Proof.
  induction s as [|c s IH]; [done|]. cbn [has_sep ends_sep].
  intros [Hc Hs]%orb_false_elim. destruct s; [done|now apply IH].
Qed.

Lemma valid_name_ends c : valid_name sep c = true -> ends_sep sep c = false.
Proof.
  unfold valid_name. intros [_ Hs%negb_true_iff]%andb_true_iff.
  now apply has_sep_ends.
Qed.

Lemma valid_name_nonempty c : valid_name sep c = true -> c <> ""%string.
Proof. now intros Hc ->. Qed.


Lemma ends_sep_app a b :
  b <> ""%string -> ends_sep sep (a +:+ b) = ends_sep sep b.
Proof.
  intros Hb. induction a as [|c a IH]; [done|].
  change (String c a +:+ b) with (String c (a +:+ b)). cbn [ends_sep].
  destruct (a +:+ b) eqn:Hab; [|done].
  destruct a; [now cbn in Hab|done].
Qed.

(** Components joined by the separator end as the last of them does. *)
Lemma concat_ends cs c :
  last cs = Some c -> valid_name sep c = true ->
  ends_sep sep (String.concat (sep_string sep) cs) = false /\
  String.concat (sep_string sep) cs <> ""%string.
Proof.
  intros Hl Hc. induction cs as [|x cs IH]; [done|].
  destruct cs as [|y cs].
  - injection Hl as ->. cbn. split; [now apply valid_name_ends|].
    now apply valid_name_nonempty.
  - destruct (IH Hl) as [He Hne].
    change (String.concat (sep_string sep) (x :: y :: cs))
      with (x +:+ String sep (String.concat (sep_string sep) (y :: cs))).
    split.
    + rewrite ends_sep_app by done. cbn [ends_sep].
      now destruct (String.concat (sep_string sep) (y :: cs)).
    + now destruct x.
Qed.


Lemma HasSlashSuffix_replace s :
  HasSlashSuffix (replace_sep sep s) = ends_sep sep s.
Proof.
  induction s as [|c s IH]; [done|]. cbn [replace_sep HasSlashSuffix ends_sep].
  destruct s as [|c' s].
  - cbn. unfold IsPathSeparator. destruct (Ascii.eqb c sep); [done|].
    now rewrite orb_false_l.
  - exact IH.
Qed.

(** A key that ends in a slash comes from a path that ends in a
    separator. *)
Lemma HasSlashSuffix_ToSlash s :
  ends_sep sep s = false -> HasSlashSuffix (ToSlash sep s) = false.
Proof.
  unfold ToSlash. destruct (Ascii.eqb sep "/") eqn:Hsep.
  - apply Ascii.eqb_eq in Hsep. induction s as [|c s IH]; [done|].
    cbn [HasSlashSuffix ends_sep]. destruct s as [|c' s]; [|exact IH].
    unfold IsPathSeparator. now intros [_ ?]%orb_false_elim.
  - now rewrite HasSlashSuffix_replace.
Qed.
End Names.

Section PlanKeys.
Variable env : Env.

Lemma fs_root_valid : valid_tree (env_sep env) (fs_root env) = true.
Proof. apply prune_valid. Qed.

(** A path that [os.Stat] or [os.Lstat] accepts is made of names of
    files. *)
Lemma stat_node_valid p n :
  stat_node env p = Ok n ->
  valid_tree (env_sep env) n = true /\
  Forall (fun c => valid_name (env_sep env) c = true) p.
Proof. apply namei_valid; apply fs_root_valid. Qed.

Lemma lstat_node_valid p n :
  lstat_node env p = Ok n ->
  valid_tree (env_sep env) n = true /\
  Forall (fun c => valid_name (env_sep env) c = true) p.
Proof. apply namei_valid; apply fs_root_valid. Qed.

(** Every call of a walk is on a path below the root of the walk, along
    names of files, and the call on the root itself carries the root's
    [FileInfo]. *)
Lemma walk_calls_paths n : forall p c,
  valid_tree (env_sep env) n = true ->
  c ∈ walk_calls env p n ->
  exists r, c_path c = p ++ r /\
            Forall (fun c => valid_name (env_sep env) c = true) r /\
            (r = [] -> c_info c = Some (info_at env p n)).
Proof.
  induction n as [f|t|a es IH] using node_tree_ind; intros p c Hv Hc.
  - apply list_elem_of_singleton in Hc as ->. exists []. now rewrite app_nil_r.
  - apply list_elem_of_singleton in Hc as ->. exists []. now rewrite app_nil_r.
  - rewrite walk_calls_dir in Hc. destruct (d_list a).
    2:{ apply list_elem_of_singleton in Hc as ->. exists []. now rewrite app_nil_r. }
    apply elem_of_cons in Hc as [->|Hc].
    { exists []. now rewrite app_nil_r. }
    apply list_elem_of_In, in_flat_map in Hc as ([name child] & Hin & Hc).
    apply list_elem_of_In in Hin, Hc. cbn [fst snd] in Hc.
    assert (Hname : valid_name (env_sep env) name = true /\
                    valid_tree (env_sep env) child = true).
    { clear - Hv Hin. cbn [valid_tree] in Hv.
      induction es as [|[nm c'] es IHes]; [now apply elem_of_nil in Hin|].
      apply andb_true_iff in Hv as [[Hnm Hc]%andb_true_iff Hes].
      apply elem_of_cons in Hin as [[= -> ->]|Hin]; [done|now apply IHes]. }
    destruct Hname as [Hname Hchild].
    destruct (d_search a).
    + rewrite Forall_forall in IH.
      destruct (IH _ Hin (Join p name) c Hchild Hc) as (r & Hr & Hall & _).
      exists (name :: r). unfold Join in Hr. rewrite <- app_assoc in Hr.
      split; [done|]. split; [now constructor|discriminate].
    + apply list_elem_of_singleton in Hc as ->. exists [name].
      split; [done|]. split; [now repeat constructor|discriminate].
Qed.

(** A key made of names of files does not end in a slash. *)
Lemma key_of_valid_path baseDir (p : path) relPath :
  Forall (fun c => valid_name (env_sep env) c = true)
    (rel_components baseDir p) ->
  rel_components baseDir p <> [] ->
  Rel (env_sep env) baseDir p = Ok relPath ->
  HasSlashSuffix (ToSlash (env_sep env) relPath) = false.
Proof.
  intros Hcs Hne. unfold Rel.
  destruct (rel_components baseDir p) as [|x cs] eqn:Hrel.
  - done.
  - intros [= <-]. apply HasSlashSuffix_ToSlash.
    destruct (last (x :: cs)) as [c|] eqn:Hl; [|now apply last_None in Hl].
    assert (Hc : valid_name (env_sep env) c = true).
    { rewrite Forall_forall in Hcs. apply Hcs.
      apply last_Some in Hl as [l' ->]. apply elem_of_app. right. now left. }
    exact (proj1 (concat_ends (env_sep env) (x :: cs) c Hl Hc)).
Qed.

(** No key that a job offers a file under ends in a slash. *)
Lemma plan_keys inputs s p k :
  s ∈ plan env inputs -> candidate env s = Some (p, k) ->
  HasSlashSuffix k = false.
Proof.
  intros Hs Hc.
  apply list_elem_of_In, in_flat_map in Hs as (source & _ & Hs).
  apply list_elem_of_In in Hs. unfold source_steps in Hs.
  destruct (Abs _ _ _) as [absSource|].
  2:{ now apply list_elem_of_singleton in Hs as ->. }
  destruct (Stat env absSource) as [info|] eqn:Hst.
  2:{ now apply list_elem_of_singleton in Hs as ->. }
  assert (Habs : Forall (fun c => valid_name (env_sep env) c = true) absSource).
  { unfold Stat in Hst. destruct (stat_node env absSource) as [n|] eqn:Hn; [|done].
    now apply stat_node_valid in Hn. }
  destruct (IsDir info) eqn:Hd.
  - apply list_elem_of_fmap in Hs as (c & -> & Hin).
    cbn [candidate] in Hc. destruct (c_err c); [done|].
    destruct (c_info c) as [ci|] eqn:Hci; [|done].
    destruct (IsDir ci) eqn:Hdir; [done|].
    destruct (Rel _ _ _) as [relPath|] eqn:Hrel; [|done].
    injection Hc as _ <-.
    unfold root_calls in Hin.
    destruct (lstat_node env absSource) as [n|e] eqn:Hl.
    2:{ apply list_elem_of_singleton in Hin as ->. done. }
    destruct (lstat_node_valid _ _ Hl) as [Hn _].
    destruct (walk_calls_paths _ _ _ Hn Hin) as (r & Hpath & Hr & Hinfo).
    rewrite Hpath in Hrel.
    apply (key_of_valid_path (Dir_ absSource) (absSource ++ r)); [| |done].
    + rewrite rel_components_below. apply Forall_drop. now apply Forall_app.
    + rewrite rel_components_below. intros Hdrop.
      apply (f_equal length) in Hdrop. rewrite length_drop, length_app in Hdrop.
      cbn in Hdrop.
      destruct r as [|x r]; [|cbn in Hdrop; lia].
      specialize (Hinfo eq_refl). rewrite Hci in Hinfo. injection Hinfo as ->.
      destruct absSource as [|a l]; [|cbn in Hdrop; lia].
      unfold lstat_node in Hl. rewrite namei_nil in Hl. injection Hl as <-.
      discriminate Hdir.
  - apply list_elem_of_singleton in Hs as ->. cbn [candidate] in Hc.
    injection Hc as _ <-.
    destruct (last absSource) as [c|] eqn:Hl.
    2:{ apply last_None in Hl as ->. unfold Stat in Hst. cbn in Hst.
        injection Hst as <-. discriminate. }
    rewrite (Base_last _ _ _ Hl). apply HasSlashSuffix_ToSlash, valid_name_ends.
    rewrite Forall_forall in Habs. apply Habs.
    apply last_Some in Hl as [l' ->]. apply elem_of_app. right. now left.
Qed.
End PlanKeys.

(** ** The result of [Zip] *)

Lemma run_created env opt :
  create_err env (OutputPath opt) = None ->
  run env opt =
    let r := zipLoop (created env (OutputPath opt)) (InputPaths opt) initState in
    {| ret := r.1;
       archive := Some {| entries := rev (written r.2);
                          terminated := bool_decide (writer_close_err env = None) |};
       trace := rev (out r.2) ++ closing env |}.
Proof.
  intros Hc. unfold run. rewrite Hc. cbv zeta.
  destruct (zipLoop (created env (OutputPath opt)) (InputPaths opt) initState)
    as [r st]. cbn [fst snd].
  unfold closeFile, closeWriter, closing.
  cbn [created writer_close_err file_close_err].
  destruct (writer_close_err env), (file_close_err env); cbn;
    rewrite <- ?app_assoc; done.
Qed.

(** The results of the two closes are not looked at before the loop has
    ended. *)
Lemma zipLoop_with_close_errs w f env output inputs st :
  zipLoop (created (with_close_errs w f env) output) inputs st
  = zipLoop (created env output) inputs st.
Proof. reflexivity. Qed.

Lemma Zip_WithPaths env inputs output :
  Zip env [WithPaths inputs output]
  = run env {| InputPaths := inputs; OutputPath := output;
               CompressionLevel := 0; IncludeOriginal := false;
               Abort := make_chan |}.
Proof. reflexivity. Qed.

Lemma archive_inv env opt a :
  archive (run env opt) = Some a ->
  create_err env (OutputPath opt) = None /\
  entries a
  = rev (written (zipLoop (created env (OutputPath opt)) (InputPaths opt) initState).2) /\
  terminated a = bool_decide (writer_close_err env = None).
Proof.
  destruct (create_err env (OutputPath opt)) eqn:Hc.
  - unfold run. now rewrite Hc.
  - rewrite (run_created _ _ Hc). cbn. now intros [= <-].
Qed.

(** Every entry the loop writes comes from the first step of the plan
    that offers its name. *)
Lemma zipLoop_provenance env inputs e :
  e ∈ written (zipLoop env inputs initState).2 ->
  exists ss1 s ss2 p f ws,
    plan env inputs = ss1 ++ s :: ss2 /\
    candidate env s = Some (p, Name (header e)) /\
    (Name (header e) ∉ keys env ss1) /\
    recheck_fails env p = false /\ Open env p = Ok f /\
    e = stored env p (Name (header e)) ws f.
Proof.
  intros He. rewrite zipLoop_exec in He.
  destruct (exec env (plan env inputs) initState) as [r st'] eqn:Hex.
  assert (Hpast : all_marked env [] initState).
  { intros k Hk. now apply elem_of_nil in Hk. }
  destruct (exec_provenance env _ _ _ _ _ _ Hpast Hex He) as [Hin|H]; [|exact H].
  now apply elem_of_nil in Hin.
Qed.





Lemma zipLoop_keys env inputs e :
  e ∈ written (zipLoop env inputs initState).2 ->
  HasSlashSuffix (Name (header e)) = false.
Proof.
  intros (ss1 & s & ss2 & p & f & ws & Hplan & Hc & _)%zipLoop_provenance.
  apply (plan_keys env inputs s p); [|done].
  rewrite Hplan. apply elem_of_app. right. now left.
Qed.

Lemma stored_data env p k ws f :
  f_output f = false -> HasSlashSuffix k = false ->
  data (stored env p k ws f) = read_from env p f.
Proof. intros Hf Hk. now rewrite stored_plain, <- (copied_file env p k f). Qed.

(** The entry of a file whose copy went through has all its bytes. *)
Lemma stored_whole env p k ws f :
  f_output f = false -> HasSlashSuffix k = false ->
  copy_ret env p k (source_of env k ws f) = None ->
  data (stored env p k ws f) = f_data f.
Proof.
  intros Hf Hk Hc. rewrite stored_data by done.
  rewrite source_of_plain, copy_ret_file in Hc by done.
  apply read_from_all. now destruct (copy_err env p).
Qed.

Lemma stored_method env p k ws f :
  HasSlashSuffix k = false -> Method (header (stored env p k ws f)) = Deflate.
Proof. intros Hk. cbn. now rewrite Hk. Qed.


(** C8: on every exit path of Zip once the output file is created, with
    or without a fatal error from the traversal, the trace ends with the
    close of the archive writer followed by the close of the output file
    (each followed by its printed complaint when it fails), and the value
    returned is the one the traversal produced, whatever the two closes
    return. *)
Theorem closes_always_attempted env opts w f :
  create_err env (OutputPath (loadOptions opts)) = None ->
  (exists body, trace (Zip env opts) = body ++ closing env) /\
  ret (Zip env opts)
  = (zipLoop (job_env env opts) (InputPaths (loadOptions opts)) initState).1 /\
  ret (Zip (with_close_errs w f env) opts) = ret (Zip env opts).
Proof.
  intros Hc. unfold Zip, job_env.
  rewrite (run_created env _ Hc), (run_created (with_close_errs w f env) _ Hc).
  cbn [trace ret]. rewrite zipLoop_with_close_errs. eauto.
Qed.

Lemma closes_always_attempted_witness :
  let env := Sample.failing_closes in
  let opts := [WithPaths ["proj"%string] "out.zip"] in
  create_err env (OutputPath (loadOptions opts)) = None /\
  ret (Zip env opts) = Some (Sys EACCES) /\
  (exists body, trace (Zip env opts) = body ++ closing env) /\
  ret (Zip env opts)
  = (zipLoop (job_env env opts) (InputPaths (loadOptions opts)) initState).1 /\
  ret (Zip (with_close_errs None (Some ENOSPC) env) opts) = ret (Zip env opts).
Proof.
  split; [reflexivity|]. split; [vm_compute; reflexivity|].
  apply (closes_always_attempted Sample.failing_closes
           [WithPaths ["proj"%string] "out.zip"] None (Some ENOSPC)).
  reflexivity.
Defined.

(** C9: two jobs whose options agree on the input paths and the output
    path, and differ in CompressionLevel, IncludeOriginal or Abort, have
    the same outcome (value returned, archive, trace), and every entry
    written is given the Deflate method. *)
Theorem unused_options_have_no_effect env opts1 opts2 :
  InputPaths (loadOptions opts1) = InputPaths (loadOptions opts2) ->
  OutputPath (loadOptions opts1) = OutputPath (loadOptions opts2) ->
  Zip env opts1 = Zip env opts2 /\
  (forall a e, archive (Zip env opts1) = Some a -> e ∈ entries a ->
               Method (header e) = Deflate).
Proof.
  intros Hin Hout. split.
  - unfold Zip, run. now rewrite Hin, Hout.
  - intros a e Ha He. apply archive_inv in Ha as (_ & Hent & _).
    rewrite Hent, elem_of_rev in He.
    pose proof (zipLoop_keys _ _ _ He) as Hk.
    apply zipLoop_provenance in He
      as (ss1 & s & ss2 & p & f & ws & Hplan & Hc & _ & _ & _ & Heq).
    rewrite Heq. now apply stored_method.
Qed.

Lemma unused_options_have_no_effect_witness :
  let env := Sample.host Sample.proj_tree in
  let opts1 := [WithPaths ["proj"%string] "out.zip"] in
  let opts2 := [Sample.level9; WithPaths ["proj"%string] "out.zip"] in
  CompressionLevel (loadOptions opts1) <> CompressionLevel (loadOptions opts2) /\
  Zip env opts1 = Zip env opts2 /\
  (forall a e, archive (Zip env opts1) = Some a -> e ∈ entries a ->
               Method (header e) = Deflate).
Proof.
  split; [discriminate|].
  apply (unused_options_have_no_effect (Sample.host Sample.proj_tree)
           [WithPaths ["proj"%string] "out.zip"]
           [Sample.level9; WithPaths ["proj"%string] "out.zip"]); reflexivity.
Defined.

(** C7, as the code has it: when the archive writer fails to close, the
    failure is printed and the archive is left without its central
    directory, but the value Zip returns is the one the traversal
    produced: nil when no fatal error occurred. *)
Theorem writer_close_failure_is_printed env opts e :
  create_err env (OutputPath (loadOptions opts)) = None ->
  writer_close_err env = Some e ->
  ErrClosingArchive e ∈ trace (Zip env opts) /\
  ret (Zip env opts)
  = (zipLoop (job_env env opts) (InputPaths (loadOptions opts)) initState).1 /\
  (forall a, archive (Zip env opts) = Some a -> terminated a = false).
Proof.
  intros Hc He. unfold Zip, job_env. rewrite (run_created env _ Hc).
  cbn [ret trace archive].
  split; [|split; [done|]].
  - apply elem_of_app. right. unfold closing. rewrite He. cbn.
    apply elem_of_cons. right. apply elem_of_cons. now left.
  - intros a [= <-]. cbn. rewrite He. done.
Qed.

Lemma writer_close_failure_is_printed_witness :
  let env := Sample.failing_writer in
  let opts := [WithPaths ["proj"%string] "out.zip"] in
  writer_close_err env = Some EIO /\
  ErrClosingArchive EIO ∈ trace (Zip env opts) /\
  ret (Zip env opts)
  = (zipLoop (job_env env opts) (InputPaths (loadOptions opts)) initState).1 /\
  (forall a, archive (Zip env opts) = Some a -> terminated a = false).
Proof.
  split; [reflexivity|].
  apply (writer_close_failure_is_printed Sample.failing_writer
           [WithPaths ["proj"%string] "out.zip"] EIO); reflexivity.
Defined.

(** C7 as stated fails: the zip writer fails to close, no fatal error
    occurred during the traversal, and Zip returns nil. *)
Lemma writer_close_failure_not_returned :
  let env := Sample.failing_writer in
  let opts := [WithPaths ["proj"%string] "out.zip"] in
  writer_close_err env = Some EIO /\
  (zipLoop (job_env env opts) (InputPaths (loadOptions opts)) initState).1 = None /\
  WriterClose (Some EIO) ∈ trace (Zip env opts) /\
  ret (Zip env opts) = None.
Proof.
  cbv zeta. split; [reflexivity|]. split; [vm_compute; reflexivity|].
  split; [|vm_compute; reflexivity].
  vm_compute. do 4 right. left.
Qed.

(** ** Inputs that fail to resolve *)

Section Core.
Variable env : Env.

Lemma same_core_seen k st1 st2 : same_core st1 st2 -> seen k st1 = seen k st2.
Proof. intros [Hp _]. unfold seen. now rewrite Hp. Qed.







End Core.



(** ** Errors that end the job *)

Lemma closing_announces env w : w ∈ closing env -> announces w = None.
Proof.
  unfold closing. intros Hw.
  destruct (writer_close_err env), (file_close_err env); cbn in Hw;
    repeat (apply elem_of_cons in Hw as [->|Hw]; [done|]);
    now apply elem_of_nil in Hw.
Qed.

(** A printed line that announces an error is the last line before the
    closes, and [Zip] returns the error. *)
Lemma trace_announced env opts w e :
  w ∈ trace (Zip env opts) -> announces w = Some e ->
  ret (Zip env opts) = Some e /\
  exists body, trace (Zip env opts) = body ++ w :: closing env.
Proof.
  unfold Zip. intros Hw Ha.
  destruct (create_err env (OutputPath (loadOptions opts))) eqn:Hc.
  { unfold run in Hw. rewrite Hc in Hw. now apply elem_of_nil in Hw. }
  rewrite (run_created _ _ Hc) in Hw |- *. cbn in Hw |- *.
  apply elem_of_app in Hw as [Hw|Hw].
  2:{ apply closing_announces in Hw. congruence. }
  rewrite elem_of_rev, zipLoop_exec in Hw. rewrite zipLoop_exec.
  destruct (exec _ _ initState) as [r st] eqn:Hex. cbn in Hw |- *.
  destruct (exec_announced _ _ _ _ _ _ _ Hex Hw Ha) as [Hin|[-> [tl Htl]]].
  { now apply elem_of_nil in Hin. }
  split; [done|]. exists (rev tl). rewrite Htl. cbn. now rewrite <- app_assoc.
Qed.

(** C6, as the code has it: in [addFileToZip], when the re-check before
    the open fails (the path cannot be stat'ed, or it is a directory) the
    file is skipped with a warning and nil is returned, the map and the
    archive untouched.  Anything else goes on to the open, a regular file
    or not: when the open fails, the error is printed and returned, and a
    job in which that happens returns that error; when it succeeds and
    the writer takes the entry, the file is added, whatever its kind. *)
Theorem recheck_skips_but_open_error_is_fatal env p k st :
  (forall e, Stat env p = Err e ->
     addFileToZip env p k st =
       (None, say (if bool_decide (e = ENOENT) then WarnNotExist p
                   else WarnNotFile p) st)) /\
  (forall info, Stat env p = Ok info -> IsDir info = true ->
     addFileToZip env p k st = (None, say (WarnNotFile p) st)) /\
  (forall info e, Stat env p = Ok info -> IsDir info = false ->
     Open env p = Err e ->
     addFileToZip env p k st = (Some (Sys e), say (ErrOpen p e) st)) /\
  (forall opts e, ErrOpen p e ∈ trace (Zip env opts) ->
     ret (Zip env opts) = Some e) /\
  (forall info f, Stat env p = Ok info -> IsDir info = false ->
     Open env p = Ok f ->
     fstat_err env p = None -> header_err env k = None -> copy_err env p = None ->
     HasSlashSuffix k = false ->
     addFileToZip env p k st
     = (None, closeSource env p
                (say (Added k) (push (stored env p k (written st) f) st))) /\
     (f_output f = false ->
      data (stored env p k (written st) f) = f_data f)).
Proof.
  split; [|split; [|split; [|split]]].
  - intros e He. unfold addFileToZip. rewrite He. cbn. now destruct e.
  - intros info Hi Hd. unfold addFileToZip. now rewrite Hi, Hd.
  - intros info e Hi Hd Ho. unfold addFileToZip. now rewrite Hi, Hd, Ho.
  - intros opts e Hin. now apply (trace_announced env opts (ErrOpen p e) e).
  - intros info f Hi Hd Ho Hfs Hh Hc Hk.
    assert (Hre : recheck_fails env p = false).
    { unfold recheck_fails. now rewrite Hi. }
    assert (Hret : forall src, copy_ret env p k src = None).
    { intros src. rewrite copy_ret_file by done. now rewrite Hc. }
    split.
    + destruct (addFileToZip_spec env p k st); congruence.
    + intros Hf. now apply stored_whole.
Qed.

(** C6 as stated fails.  [/dev/null] is a device, and the re-check finds
    it so: not a regular file.  Still the add does not skip it: it opens
    the device, makes an entry of what it reads from it (nothing), prints
    "Added" and returns nil, in a job as well.  A device that yields
    bytes is stored with them. *)
Lemma device_is_not_skipped :
  let env := Sample.host Sample.device_tree in
  let null := ["dev"; "null"]%string in
  (exists info, Stat env null = Ok info /\ fi_kind info = Irregular) /\
  addFileToZip env null "null" initState
  = (None, say (Added "null")
             (push (entry_of "null" (Sample.device "") []) initState)) /\
  ret (Zip env [WithPaths ["/dev/null"%string] "out.zip"]) = None /\
  archive (Zip env [WithPaths ["/dev/null"%string] "out.zip"])
  = Some {| entries := [entry_of "null" (Sample.device "") []];
            terminated := true |} /\
  archive (Zip env [WithPaths ["/dev/tape"%string] "out.zip"])
  = Some {| entries := [entry_of "tape" (Sample.device "reel") (Sample.bytes "reel")];
            terminated := true |}.
Proof.
  cbv zeta. split; [eexists; split; vm_compute; reflexivity|].
  repeat split; vm_compute; reflexivity.
Qed.

Section Fatal.
Variable env : Env.

Lemma zipLoop_app inputs1 inputs2 st :
  zipLoop env (inputs1 ++ inputs2) st =
    match zipLoop env inputs1 st with
    | (Some err, st') => (Some err, st')
    | (None, st') => zipLoop env inputs2 st'
    end.
Proof.
  revert st. induction inputs1 as [|source inputs1 IH]; intros st; [done|].
  cbn. destruct (zipSource env source st) as [[err|] st']; [done|apply IH].
Qed.

(** The add prints no access warning. *)
Lemma addFileToZip_no_access p k st q e :
  WarnAccess q e ∈ out (addFileToZip env p k st).2 -> WarnAccess q e ∈ out st.
Proof.
  assert (Hcl : forall l, WarnAccess q e ∈ close_lines env p ++ l ->
                          WarnAccess q e ∈ l).
  { intros l [Hin|Hin]%elem_of_app; [|done]. unfold close_lines in Hin.
    destruct (src_close_err env p).
    - now apply list_elem_of_singleton in Hin.
    - now apply elem_of_nil in Hin. }
  destruct (addFileToZip_spec env p k st); cbn [snd];
    rewrite ?closeSource_out; cbn [out say push];
    try (intros Hin%Hcl; revert Hin); try done.
  - unfold recheck_warning. destruct (IsNotExist _);
      now intros [?|?]%elem_of_cons.
  - now intros [?|?]%elem_of_cons.
  - now intros [?|?]%elem_of_cons.
  - now intros [?|?]%elem_of_cons.
Qed.

(** Only the walk of a directory input prints an access warning. *)
Lemma zipSource_access source st r st' p e :
  zipSource env source st = (r, st') ->
  WarnAccess p e ∈ out st' -> WarnAccess p e ∉ out st ->
  dir_input env source = true /\ r = Some e.
Proof.
  intros Hz Hin Hnin.
  assert (Hr : r = Some e).
  { rewrite zipSource_exec in Hz.
    destruct (exec_announced env _ _ _ _ _ e Hz Hin) as [?|[? _]]; done. }
  split; [|done]. subst r. revert Hz. unfold zipSource, dir_input.
  destruct (Abs _ _ _) as [absSource|]; [|done].
  destruct (Stat env absSource) as [info|]; [|done].
  destruct (IsDir info); [done|]. intros Hz.
  unfold singleFile in Hz. destruct (negb _); [|done].
  pose proof (addFileToZip_no_access absSource
                (ToSlash (env_sep env) (Base (env_sep env) absSource)) st p e)
    as Hno.
  destruct (addFileToZip env absSource _ st) as [[e1|] st1];
    injection Hz as _ <-; destruct Hnin; now apply Hno.
Qed.

Lemma zipLoop_access inputs : forall st r st' p e,
  zipLoop env inputs st = (r, st') ->
  WarnAccess p e ∈ out st' -> WarnAccess p e ∉ out st ->
  exists pre source post st1,
    inputs = pre ++ source :: post /\ dir_input env source = true /\
    zipLoop env pre st = (None, st1) /\
    zipSource env source st1 = (Some e, st').
Proof.
  induction inputs as [|source inputs IH]; intros st r st' p e Hz Hin Hnin.
  - now injection Hz as <- <-.
  - cbn in Hz. destruct (zipSource env source st) as [[e1|] st1] eqn:Hs.
    + injection Hz as <- <-.
      destruct (zipSource_access _ _ _ _ _ _ Hs Hin Hnin) as [Hd [= ->]].
      now exists [], source, inputs, st.
    + assert (Hnin1 : WarnAccess p e ∉ out st1).
      { intros Hin1. now destruct (zipSource_access _ _ _ _ _ _ Hs Hin1 Hnin). }
      destruct (IH _ _ _ _ _ Hz Hin Hnin1)
        as (pre & src & post & st2 & -> & Hd & Hpre & Hsrc).
      exists (source :: pre), src, post, st2. repeat split; try done.
      cbn. now rewrite Hs.
Qed.
End Fatal.

(** C5: the walk function returns the error it is handed, printing the
    access warning; a job in which that happens for a path [p] returns
    that error: the warning is the last line before the closes, it was
    printed in the walk of a directory input, and whatever inputs follow
    that one are never looked at. *)
Theorem walk_access_error_is_fatal env opts p e :
  WarnAccess p e ∈ trace (Zip env opts) ->
  (forall baseDir info st,
     walkFn (job_env env opts) baseDir p info (Some e) st
     = (Some e, say (WarnAccess p e) st)) /\
  ret (Zip env opts) = Some e /\
  (exists body, trace (Zip env opts) = body ++ WarnAccess p e :: closing env) /\
  exists pre source post st,
    InputPaths (loadOptions opts) = pre ++ source :: post /\
    dir_input (job_env env opts) source = true /\
    forall others,
      zipLoop (job_env env opts) (pre ++ source :: others) initState = (Some e, st).
Proof.
  intros Hin. split; [done|].
  destruct (trace_announced env opts _ e Hin eq_refl) as [Hret Hbody].
  split; [done|]. split; [done|].
  unfold Zip in Hin. unfold job_env.
  destruct (create_err env (OutputPath (loadOptions opts))) eqn:Hc.
  { unfold run in Hin. rewrite Hc in Hin. now apply elem_of_nil in Hin. }
  rewrite (run_created _ _ Hc) in Hin. cbn in Hin.
  apply elem_of_app in Hin as [Hin|Hin].
  2:{ now apply closing_announces in Hin. }
  rewrite elem_of_rev in Hin.
  destruct (zipLoop (created env (OutputPath (loadOptions opts)))
              (InputPaths (loadOptions opts)) initState) as [r st] eqn:Hz.
  destruct (zipLoop_access _ _ _ _ _ _ _ Hz Hin)
    as (pre & source & post & st1 & Heq & Hd & Hpre & Hsrc).
  { cbn. apply not_elem_of_nil. }
  exists pre, source, post, st. repeat split; try done.
  intros others. rewrite zipLoop_app, Hpre. cbn. now rewrite Hsrc.
Qed.

Lemma walk_access_error_is_fatal_witness :
  let env := Sample.host Sample.guarded_tree in
  let opts := [WithPaths ["proj"%string; "other.txt"%string] "out.zip"] in
  let p := ["home"%string; "proj"%string; "private"%string] in
  WarnAccess p EACCES ∈ trace (Zip env opts) /\
  (forall baseDir info st,
     walkFn (job_env env opts) baseDir p info (Some (Sys EACCES)) st
     = (Some (Sys EACCES), say (WarnAccess p EACCES) st)) /\
  ret (Zip env opts) = Some (Sys EACCES) /\
  (exists body, trace (Zip env opts) = body ++ WarnAccess p EACCES :: closing env) /\
  exists pre source post st,
    InputPaths (loadOptions opts) = pre ++ source :: post /\
    dir_input (job_env env opts) source = true /\
    forall others,
      zipLoop (job_env env opts) (pre ++ source :: others) initState
      = (Some (Sys EACCES), st).
Proof.
  assert (H : WarnAccess ["home"%string; "proj"%string; "private"%string] EACCES
              ∈ trace (Zip (Sample.host Sample.guarded_tree)
                         [WithPaths ["proj"%string; "other.txt"%string] "out.zip"])).
  { apply (bool_decide_unpack _). vm_compute. exact I. }
  split; [exact H|].
  exact (walk_access_error_is_fatal _ _ _ _ H).
Defined.

(** ** Deduplication *)

Section Dedup.
Variable env : Env.

(** The first step that offers a key is one step of the plan. *)
Lemma first_offer_unique k ss1 : forall s ss2 ss1' s' ss2' p p',
  ss1 ++ s :: ss2 = ss1' ++ s' :: ss2' ->
  candidate env s = Some (p, k) -> candidate env s' = Some (p', k) ->
  k ∉ keys env ss1 -> k ∉ keys env ss1' ->
  ss1 = ss1' /\ s = s' /\ ss2 = ss2'.
Proof.
  induction ss1 as [|x ss1 IH]; intros s ss2 ss1' s' ss2' p p' Heq Hc Hc' Hk Hk'.
  - destruct ss1' as [|x' ss1']; cbn in Heq.
    + now injection Heq as -> ->.
    + injection Heq as <- _. destruct Hk'.
      rewrite keys_cons, Hc. now left.
  - destruct ss1' as [|x' ss1']; cbn in Heq.
    + injection Heq as -> _. destruct Hk.
      rewrite keys_cons, Hc'. now left.
    + injection Heq as <- Heq.
      rewrite keys_cons in Hk, Hk'.
      destruct (IH _ _ _ _ _ _ _ Heq Hc Hc') as (-> & -> & ->); [| |done].
      * destruct (candidate env x) as [[]|]; [|done].
        intros ?. apply Hk. now right.
      * destruct (candidate env x) as [[]|]; [|done].
        intros ?. apply Hk'. now right.
Qed.


(** A step whose key is marked already does nothing and returns nil. *)
Lemma run_step_seen_skip s p k st :
  candidate env s = Some (p, k) -> seen k st = true ->
  run_step env s st = (None, st).
Proof. intros Hc Hs. now rewrite (run_step_candidate _ _ _ _ _ Hc), Hs. Qed.

End Dedup.




(** C10: in the walk of a directory the key is marked before the add
    runs.  Let the first step of the plan that offers key [k] be a call of
    the walk function on a path [p] whose re-check fails.  Then that call
    returns nil with the key marked and nothing written; every later file
    offered under [k] is skipped; and the archive never gets an entry
    named [k].  In the single-file branch the add runs with the key
    unmarked, and the key is marked afterwards exactly when the add
    returned nil. *)
Theorem walk_marks_key_before_add env opts ss1 baseDir c ss2 p k :
  plan (job_env env opts) (InputPaths (loadOptions opts))
  = ss1 ++ Visit baseDir c :: ss2 ->
  candidate (job_env env opts) (Visit baseDir c) = Some (p, k) ->
  k ∉ keys (job_env env opts) ss1 ->
  recheck_fails (job_env env opts) p = true ->
  (forall st, seen k st = false ->
     walkFn (job_env env opts) baseDir (c_path c) (c_info c) None st
     = (None, say (recheck_warning (job_env env opts) p) (mark k st))) /\
  (forall s p' st r st',
     run_step (job_env env opts) (Visit baseDir c) st = (r, st') ->
     candidate (job_env env opts) s = Some (p', k) ->
     run_step (job_env env opts) s st' = (None, st')) /\
  (forall a e, archive (Zip env opts) = Some a -> e ∈ entries a ->
     Name (header e) <> k) /\
  (forall absSource st r st',
     let key := ToSlash (env_sep env) (Base (env_sep env) absSource) in
     seen key st = false ->
     singleFile (job_env env opts) absSource st = (r, st') ->
     (addFileToZip (job_env env opts) absSource key st).1 = r /\
     (seen key st' = true <-> r = None)).
Proof.
  generalize (eq_refl (job_env env opts)).
  generalize (job_env env opts) at 1 3 4 5 6 7 8 9 10 11 12 13. intros env' Henv.
  intros Hplan Hc Hk Hre. split; [|split; [|split]].
  - intros st Hs.
    assert (Hrun := run_step_candidate env' _ _ _ st Hc). rewrite Hs in Hrun.
    assert (Herr : c_err c = None).
    { cbn in Hc. now destruct (c_err c). }
    unfold run_step, do_call in Hrun. rewrite Herr in Hrun.
    change (Sys <$> None) with (@None error) in Hrun. rewrite Hrun.
    destruct (addFileToZip_spec env' p k (mark k st)); congruence.
  - intros s p' st r st' Hrun Hs. eapply run_step_seen_skip; [done|].
    destruct (seen k st) eqn:Hseen.
    + rewrite (run_step_seen_skip env' _ _ _ _ Hc Hseen) in Hrun. congruence.
    + destruct (run_step_processed env' _ _ _ _ _ _ Hrun Hc Hseen) as [Hp|Hp].
      * rewrite (run_step_candidate env' _ _ _ st Hc), Hseen in Hrun.
        destruct (addFileToZip_spec env' p k (mark k st)); try congruence.
        injection Hrun as _ <-. apply seen_mark_eq.
      * unfold seen. rewrite Hp. now rewrite lookup_insert_eq.
  - intros a e Ha He Hname. apply archive_inv in Ha as (_ & Hent & _).
    rewrite Hent, elem_of_rev in He. fold (job_env env opts) in He.
    rewrite <- Henv in He.
    apply zipLoop_provenance in He
      as (ss1' & s' & ss2' & p' & f & ws & Hplan' & Hc' & Hk' & Hre' & _).
    rewrite Hname in Hc', Hk'. rewrite Hplan in Hplan'.
    destruct (first_offer_unique env' k _ _ _ _ _ _ _ _ Hplan' Hc Hc' Hk Hk')
      as (_ & <- & _).
    congruence.
  - intros absSource st r st' key Hseen Hsingle.
    assert (Hkey : key = ToSlash (env_sep env') (Base (env_sep env') absSource)).
    { now rewrite Henv. }
    unfold singleFile in Hsingle. rewrite <- Hkey, Hseen in Hsingle.
    cbn [negb] in Hsingle.
    pose proof (addFileToZip_processed env' absSource key st) as Hp.
    destruct (addFileToZip env' absSource key st) as [[e1|] st1];
      injection Hsingle as <- <-; (split; [done|]); cbn in Hp.
    + unfold seen in *. rewrite Hp, Hseen. split; congruence.
    + split; [done|]. intros _. apply seen_mark_eq.
Qed.

Lemma walk_marks_key_before_add_witness :
  let env := Sample.host Sample.dangling_tree in
  let opts := [WithPaths Sample.twin_inputs "out.zip"] in
  let ss1 := take 1 (plan (job_env env opts) Sample.twin_inputs) in
  let ss2 := drop 2 (plan (job_env env opts) Sample.twin_inputs) in
  let p := ["a"; "d"; "x"]%string in
  let k := "d/x"%string in
  let baseDir := ["a"%string] in
  let c := Sample.link_call in
  plan (job_env env opts) (InputPaths (loadOptions opts))
  = ss1 ++ Visit baseDir c :: ss2 /\
  candidate (job_env env opts) (Visit baseDir c) = Some (p, k) /\
  recheck_fails (job_env env opts) p = true /\
  (forall st, seen k st = false ->
     walkFn (job_env env opts) baseDir (c_path c) (c_info c) None st
     = (None, say (recheck_warning (job_env env opts) p) (mark k st))) /\
  (forall s p' st r st',
     run_step (job_env env opts) (Visit baseDir c) st = (r, st') ->
     candidate (job_env env opts) s = Some (p', k) ->
     run_step (job_env env opts) s st' = (None, st')) /\
  (forall a e, archive (Zip env opts) = Some a -> e ∈ entries a ->
     Name (header e) <> k) /\
  (forall absSource st r st',
     let key := ToSlash (env_sep env) (Base (env_sep env) absSource) in
     seen key st = false ->
     singleFile (job_env env opts) absSource st = (r, st') ->
     (addFileToZip (job_env env opts) absSource key st).1 = r /\
     (seen key st' = true <-> r = None)).
Proof.
  split; [vm_compute; reflexivity|].
  split; [vm_compute; reflexivity|].
  split; [vm_compute; reflexivity|].
  apply (walk_marks_key_before_add (Sample.host Sample.dangling_tree)
           [WithPaths Sample.twin_inputs "out.zip"]
           (take 1 (plan (job_env (Sample.host Sample.dangling_tree)
                            [WithPaths Sample.twin_inputs "out.zip"])
                      Sample.twin_inputs))
           ["a"%string] Sample.link_call
           (drop 2 (plan (job_env (Sample.host Sample.dangling_tree)
                            [WithPaths Sample.twin_inputs "out.zip"])
                      Sample.twin_inputs))
           ["a"; "d"; "x"]%string "d/x"%string).
  - vm_compute; reflexivity.
  - vm_compute; reflexivity.
  - apply (bool_decide_unpack _). vm_compute. exact I.
  - vm_compute; reflexivity.
Defined.



(** ** Directory inputs *)




Lemma recheck_skips_but_open_error_is_fatal_witness :
  let missing := Sample.host Sample.dangling_tree in
  let locked := Sample.host Sample.locked_tree in
  let devices := Sample.host Sample.device_tree in
  let link := ["a"; "d"; "x"]%string in
  let dir := ["home"; "proj"]%string in
  let file := ["home"; "proj"; "a.txt"]%string in
  let tape := ["dev"; "tape"]%string in
  addFileToZip missing link "d/x" initState
  = (None, say (WarnNotExist link) initState) /\
  addFileToZip locked dir "proj" initState
  = (None, say (WarnNotFile dir) initState) /\
  addFileToZip locked file "proj/a.txt" initState
  = (Some (Sys EACCES), say (ErrOpen file EACCES) initState) /\
  ret (Zip locked [WithPaths ["proj"%string] "out.zip"]) = Some (Sys EACCES) /\
  (addFileToZip devices tape "tape" initState).1 = None /\
  data (stored devices tape "tape" [] (Sample.device "reel")) = Sample.bytes "reel".
Proof.
  cbv zeta.
  destruct (recheck_skips_but_open_error_is_fatal (Sample.host Sample.dangling_tree)
              ["a"; "d"; "x"]%string "d/x" initState) as (Hmissing & _).
  destruct (recheck_skips_but_open_error_is_fatal (Sample.host Sample.locked_tree)
              ["home"; "proj"]%string "proj" initState) as (_ & Hdir & _).
  destruct (recheck_skips_but_open_error_is_fatal (Sample.host Sample.locked_tree)
              ["home"; "proj"; "a.txt"]%string "proj/a.txt" initState)
    as (_ & _ & Hopen & Hfatal & _).
  destruct (recheck_skips_but_open_error_is_fatal (Sample.host Sample.device_tree)
              ["dev"; "tape"]%string "tape" initState)
    as (_ & _ & _ & _ & Hadd).
  destruct (Hadd (file_info "tape" (Sample.device "reel")) (Sample.device "reel"))
    as [Hnil Hdata]; try (vm_compute; reflexivity).
  split; [|split; [|split; [|split; [|split]]]].
  - apply (Hmissing ENOENT). vm_compute; reflexivity.
  - eapply Hdir; vm_compute; reflexivity.
  - eapply Hopen; vm_compute; reflexivity.
  - apply Hfatal. apply (bool_decide_unpack _). vm_compute. exact I.
  - now rewrite Hnil.
  - now apply Hdata.
Defined.


(** * Further properties of the package and the command *)

(** ** Options *)

Lemma loadOptions_snoc opts (o : OptionFn) :
  loadOptions (opts ++ [o]) = o (loadOptions opts).
Proof. unfold loadOptions. cbv zeta. now rewrite fold_left_app. Qed.

(** X1: options are applied in order and [WithPaths] touches the two
    paths only: after any options, a final [WithPaths] decides the input
    paths and the output path and leaves the compression level, the
    include-original flag and the abort channel as the earlier options
    set them; a caller that passes [WithPaths] options alone runs with
    level 0, no original and an open channel, and with the default output
    path and no input if it passes none. *)
Theorem loadOptions_last_paths_win opts inputPaths outputPath :
  let before := loadOptions opts in
  let opt := loadOptions (opts ++ [WithPaths inputPaths outputPath]) in
  (InputPaths opt = inputPaths /\ OutputPath opt = outputPath /\
   CompressionLevel opt = CompressionLevel before /\
   IncludeOriginal opt = IncludeOriginal before /\
   Abort opt = Abort before) /\
  (forall calls : list (list string * string),
     loadOptions (map (fun c => WithPaths c.1 c.2) calls)
     = {| InputPaths := default [] (fst <$> last calls);
          OutputPath := default DefaultOutputPath (snd <$> last calls);
          CompressionLevel := 0; IncludeOriginal := false;
          Abort := make_chan |}).
Proof.
  cbv zeta. split.
  - now rewrite loadOptions_snoc.
  - intros calls. induction calls as [|c calls IH] using rev_ind; [done|].
    rewrite map_app. cbn [map]. rewrite loadOptions_snoc, IH.
    cbn. now rewrite last_snoc.
Qed.

(** ** The per-file add, whatever its outcome *)



(** ** What [Zip] returns and prints *)

Section Returned.
Variable env : Env.

Lemma walk_calls_ok n : forall p, Forall call_ok (walk_calls env p n).
Proof.
  induction n as [f|t|a es IH] using node_tree_ind; intros p;
    [now repeat constructor..|].
  rewrite walk_calls_dir. destruct (d_list a); [|now repeat constructor].
  constructor; [done|]. apply Forall_forall. intros c Hc.
  apply list_elem_of_In, in_flat_map in Hc as ([name child] & Hin & Hc).
  apply list_elem_of_In in Hin, Hc. cbn [fst snd] in Hc.
  destruct (d_search a).
  - rewrite Forall_forall in IH. specialize (IH _ Hin (Join p name)).
    rewrite Forall_forall in IH. now apply IH.
  - apply list_elem_of_singleton in Hc as ->. done.
Qed.

Lemma plan_ok inputs : Forall step_ok (plan env inputs).
Proof.
  apply Forall_forall. intros s Hs.
  apply list_elem_of_In, in_flat_map in Hs as (source & _ & Hs).
  apply list_elem_of_In in Hs. unfold source_steps in Hs.
  destruct (Abs _ _ _) as [absSource|].
  2:{ now apply list_elem_of_singleton in Hs as ->. }
  destruct (Stat env absSource) as [info|].
  2:{ now apply list_elem_of_singleton in Hs as ->. }
  destruct (IsDir info).
  2:{ now apply list_elem_of_singleton in Hs as ->. }
  apply list_elem_of_fmap in Hs as (c & -> & Hc). cbn.
  unfold root_calls in Hc. destruct (lstat_node env absSource) as [n|e].
  - pose proof (walk_calls_ok n absSource) as Hok.
    rewrite Forall_forall in Hok. now apply Hok.
  - apply list_elem_of_singleton in Hc as ->. done.
Qed.

Lemma run_step_system s st :
  step_ok s -> exists r : option errno, (run_step env s st).1 = Sys <$> r.
Proof.
  intros Hok. destruct (candidate env s) as [[p k]|] eqn:Hc.
  - rewrite (run_step_candidate _ _ _ _ _ Hc).
    destruct (seen k st); [now exists None|]. destruct s; try done.
    + destruct (addFileToZip_spec env p k (mark k st));
        solve [now exists None | eexists (Some _); reflexivity].
    + destruct (addFileToZip_spec env p k st);
        solve [now exists None | eexists (Some _); reflexivity].
  - destruct s as [src e|src e|baseDir c|absSource]; cbn in *;
      try (now exists None).
    unfold call_ok in Hok. unfold do_call, walkFn.
    destruct (c_err c) as [e|]; [now exists (Some e)|].
    destruct (c_info c) as [info|]; [|now destruct Hok].
    cbn. destruct (IsDir info); [now exists None|].
    cbn in Hc. unfold Rel in *. now destruct (rel_components _ _).
Qed.

Lemma exec_system ss : forall st,
  Forall step_ok ss -> exists r : option errno, (exec env ss st).1 = Sys <$> r.
Proof.
  induction ss as [|s ss IH]; intros st Hok; [now exists None|].
  apply Forall_cons in Hok as [Hs Hok]. cbn.
  destruct (run_step_system s st Hs) as [r Hr].
  destruct (run_step env s st) as [[e|] st1]; cbn in *.
  - now exists r.
  - now apply IH.
Qed.

Lemma added_keys_close p l :
  added_keys (close_lines env p ++ l) = added_keys l.
Proof. unfold close_lines. now destruct (src_close_err env p). Qed.

(** What one add does to the lines "Added" and to the archive: nothing,
    or an entry with its line, or an entry without a line when the copy
    fails. *)
Lemma addFileToZip_added p k st :
  let r := (addFileToZip env p k st).1 in
  let st' := (addFileToZip env p k st).2 in
  (added_keys (out st') = added_keys (out st) /\ written st' = written st) \/
  (exists e, r = None /\ written st' = e :: written st /\
             added_keys (out st') = Name (header e) :: added_keys (out st)) \/
  (exists e f err, r = Some (Sys err) /\ Name (header e) = k /\
             copy_ret env p k f = Some err /\
             written st' = e :: written st /\
             added_keys (out st') = added_keys (out st)).
Proof.
  cbv zeta.
  assert (Hw : added_keys (recheck_warning env p :: out st) = added_keys (out st)).
  { unfold recheck_warning. now destruct (IsNotExist _). }
  destruct (addFileToZip_spec env p k st); cbn [fst snd];
    rewrite ?closeSource_out, ?closeSource_written, ?added_keys_close;
    cbn [out written say push].
  - now left.
  - now left.
  - now left.
  - now left.
  - right; right.
    now exists (stored env p k (written st) f), (source_of env k (written st) f), e.
  - right; left. now exists (stored env p k (written st) f).
Qed.

(** What one step does to the lines "Added" and to the archive. *)
Lemma run_step_added s st r st' :
  run_step env s st = (r, st') ->
  (added_keys (out st') = added_keys (out st) /\ written st' = written st) \/
  (exists e, r = None /\ written st' = e :: written st /\
             added_keys (out st') = Name (header e) :: added_keys (out st)) \/
  (exists e p f err, r = Some (Sys err) /\
             candidate env s = Some (p, Name (header e)) /\
             copy_ret env p (Name (header e)) f = Some err /\
             written st' = e :: written st /\
             added_keys (out st') = added_keys (out st)).
Proof.
  intros Hrun. destruct (candidate env s) as [[p k]|] eqn:Hc.
  - rewrite (run_step_candidate _ _ _ _ _ Hc) in Hrun.
    destruct (seen k st); [injection Hrun as <- <-; now left|].
    destruct s; try done.
    + pose proof (addFileToZip_added p k (mark k st)) as Ha.
      cbv zeta in Ha. rewrite Hrun in Ha. cbn [fst snd out written mark] in Ha.
      destruct Ha as [?|[?|(e & f & err & ? & <- & ? & ? & ?)]];
        [now left|right; now left|right; right].
      now exists e, p, f, err.
    + pose proof (addFileToZip_added p k st) as Ha. cbv zeta in Ha.
      destruct (addFileToZip env p k st) as [[e1|] st1];
        injection Hrun as <- <-; cbn [fst snd out written mark] in *;
        destruct Ha as [?|[(e & ? & ?)|(e & f & err & ? & <- & ? & ? & ?)]];
        try done; try (now left); try (right; left; now exists e).
      right; right. now exists e, p, f, err.
  - left. destruct s as [src e|src e|baseDir c|absSource]; cbn in *; try done.
    + now injection Hrun as <- <-.
    + now injection Hrun as <- <-.
    + unfold do_call, walkFn in Hrun.
      destruct (c_err c); [now injection Hrun as <- <-|].
      destruct (c_info c) as [info|]; [|now injection Hrun as <- <-].
      cbn in Hrun. destruct (IsDir info); [now injection Hrun as <- <-|].
      unfold Rel in *. now destruct (rel_components _ _).
Qed.

(** Every entry has its line "Added", but for the entry written last
    when its copy failed, and then that is the error returned. *)
Lemma exec_added ss : forall st r st',
  exec env ss st = (r, st') ->
  added_keys (out st) = names st ->
  names st' = added_keys (out st') \/
  exists s p k f err,
    s ∈ ss /\ candidate env s = Some (p, k) /\
    copy_ret env p k f = Some err /\ r = Some (Sys err) /\
    names st' = k :: added_keys (out st').
Proof.
  induction ss as [|s ss IH]; intros st r st' Hex Hinv.
  - injection Hex as <- <-. now left.
  - apply exec_cons_inv in Hex as [(e & Hs & ->)|(st1 & Hs & Hex)].
    + destruct (run_step_added _ _ _ _ Hs)
        as [[Ha Hw]|[(e' & ? & _)|(e' & p & f & err & Hr & Hc & Hce & Hw & Ha)]];
        [|done|].
      * left. unfold names in *. now rewrite Ha, Hw.
      * right. exists s, p, (Name (header e')), f, err.
        split; [now left|]. repeat split; try done.
        unfold names in *. rewrite Ha, Hw. cbn. now rewrite Hinv.
    + destruct (IH _ _ _ Hex) as [?|(s' & p & k & f & err & ? & ?)].
      * destruct (run_step_added _ _ _ _ Hs)
          as [[Ha Hw]|[(e' & _ & Hw & Ha)|(e' & ? & ? & ? & ? & _)]]; [| |done];
          unfold names in *; rewrite Ha, Hw; cbn; now rewrite Hinv.
      * now left.
      * right. exists s', p, k, f, err. split; [now right|done].
Qed.

End Returned.

Lemma added_keys_rev evs : added_keys (rev evs) = rev (added_keys evs).
Proof.
  unfold added_keys. induction evs as [|w evs IH]; [done|]. cbn [rev].
  rewrite omap_app, IH. destruct w; cbn; now rewrite ?app_nil_r.
Qed.

Lemma added_keys_app evs1 evs2 :
  added_keys (evs1 ++ evs2) = added_keys evs1 ++ added_keys evs2.
Proof. apply omap_app. Qed.

Lemma added_keys_closing env : added_keys (closing env) = [].
Proof. unfold closing. now destruct (writer_close_err env), (file_close_err env). Qed.

(** X4: the error [Zip] returns, if any, is an error of the operating
    system or of the zip writer: it never returns [filepath.SkipDir] or
    [filepath.SkipAll], and the walk never hands its function a nil
    [FileInfo] without an error, so the nil is never used. *)
Theorem Zip_returns_system_errors env opts :
  exists r : option errno, ret (Zip env opts) = Sys <$> r.
Proof.
  unfold Zip. destruct (create_err env (OutputPath (loadOptions opts))) as [e|] eqn:Hc.
  - unfold run. rewrite Hc. now exists (Some e).
  - rewrite (run_created _ _ Hc). cbn. rewrite zipLoop_exec.
    apply exec_system, plan_ok.
Qed.

(** X5: the lines "Added: key" of a job are, in order, the names of the
    entries of its archive, except that the last entry has no line when
    its copy failed, and then [Zip] returns the error of that copy: the
    keys added are a prefix of the names, the names are the keys added
    or the keys added and one more name, that of a file offered whose
    copy fails with the error returned, and they are the keys added when
    the job returns nil. *)
Theorem added_lines_are_the_entries env opts a :
  archive (Zip env opts) = Some a ->
  added_keys (trace (Zip env opts)) `prefix_of`
    map (fun e => Name (header e)) (entries a) /\
  (map (fun e => Name (header e)) (entries a) = added_keys (trace (Zip env opts)) \/
   exists p k n err,
     map (fun e => Name (header e)) (entries a)
     = added_keys (trace (Zip env opts)) ++ [k] /\
     (p, k) ∈ candidates (job_env env opts) (InputPaths (loadOptions opts)) /\
     copy_err (job_env env opts) p = Some (n, err) /\
     ret (Zip env opts) = Some (Sys err)) /\
  (ret (Zip env opts) = None ->
   added_keys (trace (Zip env opts)) = map (fun e => Name (header e)) (entries a)).
Proof.
  intros Ha. apply archive_inv in Ha as (Hc & Hent & _). rewrite Hent.
  unfold Zip, job_env. rewrite (run_created _ _ Hc). cbn [trace ret].
  rewrite added_keys_app, added_keys_closing, app_nil_r.
  rewrite added_keys_rev, map_rev, zipLoop_exec.
  destruct (exec _ (plan _ (InputPaths (loadOptions opts))) initState)
    as [r st] eqn:Hex. cbn [fst snd].
  destruct (exec_added _ _ _ _ _ Hex eq_refl)
    as [Hn|(s & p & k & f & err & Hs & Hcand & Hce & Hr & Hn)];
    unfold names in Hn; rewrite Hn.
  - split; [done|]. split; [now left|done].
  - cbn [rev]. split; [now exists [k]|]. split; [|now rewrite Hr].
    rewrite copy_ret_file in Hce by exact (plan_keys _ _ s p k Hs Hcand).
    destruct (copy_err _ p) as [[n err']|] eqn:Hcopy; [|done].
    injection Hce as ->.
    right. exists p, k, n, err. repeat split; try done.
    apply list_elem_of_omap. eauto.
Qed.


Lemma added_lines_are_the_entries_witness :
  let env := short_copy_host in
  let opts := [WithPaths ["proj/sub/b.txt"; "proj"]%string "out.zip"] in
  exists a,
    archive (Zip env opts) = Some a /\
    map (fun e => Name (header e)) (entries a) = ["b.txt"; "proj/a.txt"]%string /\
    added_keys (trace (Zip env opts)) = ["b.txt"%string] /\
    added_keys (trace (Zip env opts)) `prefix_of`
      map (fun e => Name (header e)) (entries a) /\
    (map (fun e => Name (header e)) (entries a) = added_keys (trace (Zip env opts)) \/
     exists p k n err,
       map (fun e => Name (header e)) (entries a)
       = added_keys (trace (Zip env opts)) ++ [k] /\
       (p, k) ∈ candidates (job_env env opts) (InputPaths (loadOptions opts)) /\
       copy_err (job_env env opts) p = Some (n, err) /\
       ret (Zip env opts) = Some (Sys err)) /\
    (ret (Zip env opts) = None ->
     added_keys (trace (Zip env opts)) = map (fun e => Name (header e)) (entries a)).
Proof.
  cbv zeta. eexists. split; [vm_compute; reflexivity|].
  split; [reflexivity|]. split; [vm_compute; reflexivity|].
  apply (added_lines_are_the_entries short_copy_host
           [WithPaths ["proj/sub/b.txt"; "proj"]%string "out.zip"]).
  vm_compute; reflexivity.
Defined.


(** ** Jobs over more inputs *)

Section Again.
Variable env : Env.

Lemma run_step_other_ret s st1 st2 :
  candidate env s = None ->
  (run_step env s st1).1 = (run_step env s st2).1.
Proof.
  destruct s as [src e|src e|baseDir c|absSource]; cbn; try done.
  unfold do_call, walkFn.
  destruct (c_err c); [done|]. destruct (c_info c) as [info|]; [|done].
  cbn. destruct (IsDir info); [done|].
  unfold Rel. now destruct (rel_components _ _).
Qed.

Lemma exec_none_steps ss : forall st st',
  exec env ss st = (None, st') ->
  Forall (fun s => exists sa sb, run_step env s sa = (None, sb)) ss.
Proof.
  induction ss as [|s ss IH]; intros st st' Hex; [constructor|].
  apply exec_cons_inv in Hex as [(e & _ & ?)|(st1 & Hs & Hex)]; [done|].
  constructor; eauto.
Qed.

(** Steps that all returned nil before and whose keys are all marked
    now return nil again and leave the map and the archive alone. *)
Lemma exec_again ss : forall st,
  Forall (fun s => exists sa sb, run_step env s sa = (None, sb)) ss ->
  all_marked env ss st ->
  (exec env ss st).1 = None /\ same_core (exec env ss st).2 st.
Proof.
  induction ss as [|s ss IH]; intros st Hnil Hmarked; [done|].
  apply Forall_cons in Hnil as [(sa & sb & Hs) Hnil]. cbn [exec].
  assert (Hrest : forall st1, same_core st1 st -> all_marked env ss st1).
  { intros st1 Hcore k Hk. rewrite (same_core_seen k _ _ Hcore).
    apply Hmarked. rewrite keys_cons. destruct (candidate env s) as [[]|]; [|done].
    now right. }
  destruct (candidate env s) as [[p k]|] eqn:Hc.
  - rewrite (run_step_seen_skip env s p k st Hc).
    + now apply IH, Hrest.
    + apply Hmarked. rewrite keys_cons, Hc. now left.
  - pose proof (run_step_other_ret s st sa Hc) as Hr. rewrite Hs in Hr.
    destruct (run_step env s st) as [r st1] eqn:Hs1. cbn in Hr. subst r.
    destruct (run_step_other env _ _ _ _ Hc Hs1) as (Hp & Hw & _).
    assert (Hcore : same_core st1 st) by now split.
    destruct (IH st1 Hnil (Hrest _ Hcore)) as [Hr [Hp' Hw']].
    split; [done|]. split; congruence.
Qed.

Lemma plan_subset inputs more s :
  (forall source, source ∈ more -> source ∈ inputs) ->
  s ∈ plan env more -> s ∈ plan env inputs.
Proof.
  intros Hsub Hs.
  apply list_elem_of_In, in_flat_map in Hs as (source & Hin & Hs).
  apply list_elem_of_In, in_flat_map. exists source. split; [|done].
  now apply list_elem_of_In, Hsub, list_elem_of_In.
Qed.

Lemma keys_subset k ss1 ss2 :
  (forall s, s ∈ ss1 -> s ∈ ss2) -> k ∈ keys env ss1 -> k ∈ keys env ss2.
Proof.
  unfold keys. intros Hsub Hk.
  apply list_elem_of_fmap in Hk as ([p k'] & -> & Hk).
  apply list_elem_of_omap in Hk as (s & Hs & Hc).
  apply list_elem_of_fmap. exists (p, k'). split; [done|].
  apply list_elem_of_omap. eauto.
Qed.

Lemma zipLoop_repeat inputs more st1 :
  zipLoop env inputs initState = (None, st1) ->
  (forall source, source ∈ more -> source ∈ inputs) ->
  (zipLoop env more st1).1 = None /\ same_core (zipLoop env more st1).2 st1.
Proof.
  intros Hz Hsub. rewrite zipLoop_exec in Hz. rewrite zipLoop_exec.
  apply exec_again.
  - pose proof (exec_none_steps _ _ _ Hz) as Hnil.
    rewrite Forall_forall in Hnil. apply Forall_forall.
    intros s Hs. now apply Hnil, (plan_subset inputs more).
  - assert (Hall : all_marked env ([] ++ plan env inputs) st1).
    { apply (exec_all_marked env _ [] initState); [|done].
      intros k Hk. now apply elem_of_nil in Hk. }
    intros k Hk. apply Hall. cbn.
    apply (keys_subset k (plan env more)); [|done].
    intros s. now apply plan_subset.
Qed.
End Again.

(** X7: giving an input again adds nothing.  When a job returns nil, the
    job over the same inputs followed by any of them once more returns nil
    too and produces the same archive. *)
Theorem repeated_inputs_add_nothing env inputs more output :
  ret (Zip env [WithPaths inputs output]) = None ->
  (forall source, source ∈ more -> source ∈ inputs) ->
  ret (Zip env [WithPaths (inputs ++ more) output]) = None /\
  archive (Zip env [WithPaths (inputs ++ more) output])
  = archive (Zip env [WithPaths inputs output]).
Proof.
  rewrite !Zip_WithPaths. intros Hret Hsub.
  destruct (create_err env output) as [e|] eqn:Hc.
  { unfold run in Hret. cbn in Hret. now rewrite Hc in Hret. }
  rewrite !run_created in * by done.
  cbn [ret archive InputPaths OutputPath] in *.
  rewrite zipLoop_app.
  destruct (zipLoop (created env output) inputs initState) as [r st1] eqn:Hz.
  cbn in Hret. subst r.
  destruct (zipLoop_repeat _ inputs more st1 Hz Hsub) as [Hr [_ Hw]].
  destruct (zipLoop (created env output) more st1) as [r2 st2].
  cbn in *. now rewrite Hr, Hw.
Qed.

Lemma repeated_inputs_add_nothing_witness :
  let env := Sample.host Sample.proj_tree in
  let inputs := ["proj"; "nowhere"; "proj/a.txt"]%string in
  let more := ["proj/a.txt"; "proj"; "proj"]%string in
  ret (Zip env [WithPaths inputs "out.zip"]) = None /\
  ret (Zip env [WithPaths (inputs ++ more) "out.zip"]) = None /\
  archive (Zip env [WithPaths (inputs ++ more) "out.zip"])
  = archive (Zip env [WithPaths inputs "out.zip"]).
Proof.
  cbv zeta. split; [vm_compute; reflexivity|].
  apply (repeated_inputs_add_nothing (Sample.host Sample.proj_tree)
           ["proj"; "nowhere"; "proj/a.txt"]%string
           ["proj/a.txt"; "proj"; "proj"]%string "out.zip").
  - vm_compute; reflexivity.
  - intros source Hs. apply (bool_decide_unpack _).
    repeat (apply elem_of_cons in Hs as [->|Hs]; [vm_compute; exact I|]).
    now apply elem_of_nil in Hs.
Defined.

(** X8: inputs given after others only add to the archive: the entries
    of a job are the first entries, in the same order, of the job over
    the same inputs followed by more. *)
Theorem more_inputs_extend_the_archive env inputs more output a :
  archive (Zip env [WithPaths inputs output]) = Some a ->
  exists a',
    archive (Zip env [WithPaths (inputs ++ more) output]) = Some a' /\
    entries a `prefix_of` entries a' /\ terminated a' = terminated a.
Proof.
  rewrite !Zip_WithPaths.
  intros Ha. apply archive_inv in Ha as (Hc & Hent & Hterm).
  cbn [InputPaths OutputPath] in *.
  rewrite run_created by done. cbn [archive InputPaths OutputPath].
  eexists. split; [done|]. cbn [entries terminated].
  split; [|done]. rewrite Hent, zipLoop_app.
  destruct (zipLoop (created env output) inputs initState) as [[e|] st1]; [done|].
  cbn [snd]. rewrite zipLoop_exec.
  destruct (exec _ (plan _ more) st1) as [r st2] eqn:Hex. cbn [snd].
  destruct (exec_written_grows _ _ _ _ _ Hex) as [new ->].
  rewrite rev_app_distr. now exists (rev new).
Qed.

Lemma more_inputs_extend_the_archive_witness :
  let env := Sample.host Sample.twin_tree in
  exists a a',
    archive (Zip env [WithPaths ["/a/d/x"%string] "out.zip"]) = Some a /\
    archive (Zip env [WithPaths (["/a/d/x"%string] ++ ["/b/d"; "/a/d"]%string) "out.zip"])
    = Some a' /\
    map (fun e => Name (header e)) (entries a) = ["x"%string] /\
    map (fun e => Name (header e)) (entries a') = ["x"; "d/x"]%string /\
    entries a `prefix_of` entries a'.
Proof.
  cbv zeta.
  destruct (more_inputs_extend_the_archive (Sample.host Sample.twin_tree)
              ["/a/d/x"%string] ["/b/d"; "/a/d"]%string "out.zip"
              {| entries := [entry_of "x" (Sample.plain "A") (Sample.bytes "A")];
                 terminated := true |})
    as (a' & Ha' & Hpre & _); [vm_compute; reflexivity|].
  eexists _, a'. split; [vm_compute; reflexivity|]. split; [exact Ha'|].
  split; [reflexivity|]. split; [|exact Hpre].
  assert (Hcomp : archive (Zip (Sample.host Sample.twin_tree)
            [WithPaths (["/a/d/x"%string] ++ ["/b/d"; "/a/d"]%string) "out.zip"])
          = Some {| entries := [entry_of "x" (Sample.plain "A") (Sample.bytes "A");
                                entry_of "d/x" (Sample.plain "B") (Sample.bytes "B")];
                    terminated := true |}) by (vm_compute; reflexivity).
  rewrite Hcomp in Ha'. now injection Ha' as <-.
Defined.

(** X9: an error ends the job for good: when a job returns an error,
    the job over the same inputs followed by any others has the same
    outcome in every respect: value returned, archive and lines printed. *)
Theorem failed_job_ignores_later_inputs env inputs more output e :
  ret (Zip env [WithPaths inputs output]) = Some e ->
  Zip env [WithPaths (inputs ++ more) output] = Zip env [WithPaths inputs output].
Proof.
  rewrite !Zip_WithPaths. unfold run. cbn [InputPaths OutputPath].
  destruct (create_err env output) as [e'|]; [done|]. cbv zeta.
  rewrite zipLoop_app.
  destruct (zipLoop (created env output) inputs initState) as [[e1|] st1]; [done|].
  cbn. done.
Qed.

Lemma failed_job_ignores_later_inputs_witness :
  let env := Sample.host Sample.locked_tree in
  ret (Zip env [WithPaths ["proj"%string] "out.zip"]) = Some (Sys EACCES) /\
  Zip env [WithPaths (["proj"%string] ++ ["proj/z.txt"%string]) "out.zip"]
  = Zip env [WithPaths ["proj"%string] "out.zip"].
Proof.
  cbv zeta. split; [vm_compute; reflexivity|].
  apply (failed_job_ignores_later_inputs (Sample.host Sample.locked_tree)
           ["proj"%string] ["proj/z.txt"%string] "out.zip" (Sys EACCES)).
  vm_compute; reflexivity.
Defined.

(** ** The command *)

(** X10: the exit status of the command is 0 or 1, and it is 0 exactly
    when help was asked for, or the command was invoked with at least one
    argument and [Zip], called with the arguments as inputs and with the
    output path of the flag ([output.zip] when the flag is empty), returned
    nil.  [Zip] is called in no other way: never without an input. *)
Theorem main_exit_status env inv :
  (exit_status (main env inv) = 0%Z \/ exit_status (main env inv) = 1%Z) /\
  (exit_status (main env inv) = 0%Z <->
   inv = HelpWanted \/
   exists outputFile args,
     inv = Invoked outputFile args /\ args <> [] /\
     ret (Zip env [WithPaths args
                     (if String.eqb outputFile "" then "output.zip"%string
                      else outputFile)]) = None) /\
  (forall o, job (main env inv) = Some o ->
   exists outputFile args,
     inv = Invoked outputFile args /\ args <> [] /\
     o = Zip env [WithPaths args
                    (if String.eqb outputFile "" then "output.zip"%string
                     else outputFile)]).
Proof.
  destruct inv as [msg| |outputFile args]; cbn [main].
  - split; [now right|]. split; [|done]. split; [done|].
    intros [?|(? & ? & ? & _)]; done.
  - split; [now left|]. split; [|done]. split; [now left|done].
  - destruct args as [|arg args]; cbn [MinimumNArgs length Nat.ltb Nat.leb].
    + split; [now right|]. split; [|done]. split; [done|].
      intros [?|(? & ? & [= <- <-] & ? & _)]; done.
    + unfold Run, DefaultOutputPath.
      destruct (ret (Zip env _)) as [e|] eqn:Hret; cbn [exit_status job].
      * split; [now right|]. split.
        -- split; [done|]. intros [?|(? & ? & [= <- <-] & _ & H)]; [done|].
           congruence.
        -- intros o [= <-]. now exists outputFile, (arg :: args).
      * split; [now left|]. split.
        -- split; [|done]. intros _. right.
           now exists outputFile, (arg :: args).
        -- intros o [= <-]. now exists outputFile, (arg :: args).
Qed.



(** ** Keys of files given directly and of files found in a walk *)

Section KeyShapes.
Variable sep : ascii.

Lemma has_sep_app a b :
  has_sep sep (a +:+ b) = has_sep sep a || has_sep sep b.
Proof.
  induction a as [|c a IH]; [reflexivity|].
  change (String c a +:+ b) with (String c (a +:+ b)).
  cbn [has_sep]. now rewrite IH, orb_assoc.
Qed.

Lemma concat_has_sep x y l :
  has_sep sep (String.concat (sep_string sep) (x :: y :: l)) = true.
Proof.
  change (String.concat (sep_string sep) (x :: y :: l))
    with (x +:+ String sep (String.concat (sep_string sep) (y :: l))).
  rewrite has_sep_app. cbn [has_sep]. unfold IsPathSeparator.
  now rewrite Ascii.eqb_refl, orb_true_r.
Qed.

Lemma ToSlash_keeps_slash s :
  has_sep sep s = true -> has_sep "/" (ToSlash sep s) = true.
Proof.
  unfold ToSlash. destruct (Ascii.eqb sep "/") eqn:Hsep.
  { now apply Ascii.eqb_eq in Hsep as ->. }
  induction s as [|c s IH]; [done|]. cbn [has_sep replace_sep].
  unfold IsPathSeparator.
  destruct (Ascii.eqb c sep) eqn:Hc; [done|].
  destruct (Ascii.eqb c "/") eqn:Hc'; [done|]. cbn. exact IH.
Qed.
End KeyShapes.

(** X12: a file given directly and a file found in the walk of a
    directory never compete for a key.  The key of an input that is not a
    directory holds no slash; the key of anything offered by the walk of
    an input that is a directory (not a link to one, and not the root of
    the volume) holds one; so the two differ. *)
Theorem direct_and_walked_keys_differ
  env fileSource absFile info dirSource absDir da des s p k :
  match env_cwd env with
  | Ok wd => Forall (fun c => has_sep (env_sep env) c = false) wd
  | Err _ => True
  end ->
  Abs (env_sep env) (env_cwd env) fileSource = Ok absFile ->
  Stat env absFile = Ok info -> IsDir info = false ->
  Abs (env_sep env) (env_cwd env) dirSource = Ok absDir ->
  absDir <> [] ->
  lstat_node env absDir = Ok (Dir da des) ->
  s ∈ source_steps env dirSource ->
  candidate env s = Some (p, k) ->
  has_sep "/" k = true /\
  exists direct,
    candidate env (Single absFile) = Some (absFile, direct) /\
    has_sep "/" direct = false /\ direct <> k.
Proof.
  intros Hwd HabsF HstF HdF HabsD Hroot Hlstat Hs Hc.
  (* the key of the walk *)
  assert (Hk : has_sep "/" k = true).
  { assert (Hstat : stat_node env absDir = Ok (Dir da des)) by now apply lstat_stat.
    unfold source_steps, Stat, root_calls in Hs.
    rewrite HabsD, Hstat, Hlstat in Hs.
    change (IsDir (info_at env absDir (Dir da des))) with true in Hs.
    cbn match in Hs.
    apply list_elem_of_fmap in Hs as (c & -> & Hin).
    destruct (walk_calls_paths env _ _ _ (proj1 (lstat_node_valid _ _ _ Hlstat)) Hin)
      as (r & Hpath & _ & Hinfo).
    cbn in Hc. destruct (c_err c); [done|].
    destruct (c_info c) as [ci|] eqn:Hci; [|done].
    destruct (IsDir ci) eqn:Hdir; [done|].
    destruct r as [|x r].
    { specialize (Hinfo eq_refl). injection Hinfo as ->. done. }
    unfold Rel in Hc. rewrite Hpath in Hc. unfold Dir_ in Hc.
    destruct (last absDir) as [l|] eqn:Hl; [|now apply last_None in Hl].
    rewrite <- (removelast_last absDir l Hl) in Hc at 2.
    rewrite <- app_assoc, rel_components_prefix in Hc. cbn [app] in Hc.
    injection Hc as _ <-. apply ToSlash_keeps_slash, concat_has_sep. }
  split; [done|].
  (* the key of the file *)
  destruct (last absFile) as [name|] eqn:Hl.
  2:{ apply last_None in Hl as ->. unfold Stat in HstF. cbn in HstF.
      injection HstF as <-. discriminate. }
  pose proof (Abs_no_sep _ _ _ _ Hwd HabsF) as Hok.
  rewrite Forall_forall in Hok.
  assert (Hname : has_sep (env_sep env) name = false).
  { apply Hok. apply last_Some in Hl as [l' ->]. apply elem_of_app. right. now left. }
  exists name. split; [|split].
  - cbn. now rewrite (Base_last _ _ _ Hl), ToSlash_id.
  - now apply (has_sep_slash (env_sep env)).
  - intros ->. apply (has_sep_slash (env_sep env)) in Hname. congruence.
Qed.

Lemma direct_and_walked_keys_differ_witness :
  let env := Sample.host_on Sample.backslash Sample.proj_tree in
  let s := Visit ["home"%string]
             {| c_path := ["home"; "proj"; "a.txt"]%string;
                c_info := Some (file_info "a.txt" (Sample.plain "hello"));
                c_err := None |} in
  s ∈ source_steps env "proj" /\
  candidate env s = Some (["home"; "proj"; "a.txt"]%string, "proj/a.txt"%string) /\
  has_sep "/" "proj/a.txt" = true /\
  exists direct,
    candidate env (Single ["home"; "proj"; "a.txt"]%string)
    = Some (["home"; "proj"; "a.txt"]%string, direct) /\
    has_sep "/" direct = false /\ direct <> "proj/a.txt"%string.
Proof.
  cbv zeta.
  assert (Hs : Visit ["home"%string]
             {| c_path := ["home"; "proj"; "a.txt"]%string;
                c_info := Some (file_info "a.txt" (Sample.plain "hello"));
                c_err := None |}
           ∈ source_steps (Sample.host_on Sample.backslash Sample.proj_tree) "proj").
  { vm_compute. right. left. }
  split; [exact Hs|]. split; [vm_compute; reflexivity|].
  refine (direct_and_walked_keys_differ
            (Sample.host_on Sample.backslash Sample.proj_tree)
            "proj/a.txt" ["home"; "proj"; "a.txt"]%string
            (file_info "a.txt" (Sample.plain "hello"))
            "proj" ["home"; "proj"]%string Sample.open_dir
            [("a.txt"%string, File (Sample.plain "hello"));
             ("sub"%string, Dir Sample.open_dir
                              [("b.txt"%string, File (Sample.plain "world"))])]
            _ _ "proj/a.txt" _ _ _ _ _ _ _ Hs _).
  - cbn. repeat constructor.
  - vm_compute; reflexivity.
  - vm_compute; reflexivity.
  - reflexivity.
  - vm_compute; reflexivity.
  - discriminate.
  - vm_compute; reflexivity.
  - vm_compute; reflexivity.
Defined.

(** ** Jobs that return nil *)




